(** * MONAILabel pre-transforms: [monailabel/transform/pre.py]

    A shallow embedding of the three dictionary transforms
    [LoadImageTensord], [LoadImageExd] and [NormalizeLabeld], over an
    explicit store of Python objects.  Dictionaries, arrays and tensors are
    heap objects reached through references, so that [dict(data)] is a
    shallow copy, [d.setdefault(k, {})] returns the mapping that is already
    stored, and [label[label > 0] = v] writes through to every alias. *)

From stdpp Require Import base option list gmap strings fin_maps.
From Stdlib Require Import ZArith Lia.

Set Default Proof Using "Type".

Open Scope Z_scope.

(** ** Objects and values *)

Abbreviation loc := positive.

(** Immediate (immutable) values and references to heap objects. *)
Inductive value : Type :=
| VNone
| VInt (z : Z)
| VStr (s : string)
| VTuple (t : list nat)
| VRef (l : loc).

(** Heap objects.  An array carries its shape and its elements (flattened).
    [OMetaTensor x meta] is the result of [MetaTensor(arr, meta=meta_dict)]:
    a tensor over the storage of the array at [x], bound to the metadata
    mapping at [meta]. *)
Inductive obj : Type :=
| ODict (m : gmap string value)
| ONdarray (shape : list nat) (data : list Z)
| OMetaTensor (x : loc) (meta : loc).

Inductive exn : Type :=
| KeyError (k : string)
| TypeError
| AttributeError
| IndexError
| IOError (path : string)
| ExternalError (code : nat).

#[global] Instance value_eq_dec : EqDecision value.
Proof. solve_decision. Defined.

#[global] Instance exn_eq_dec : EqDecision exn.
Proof. solve_decision. Defined.

#[global] Instance obj_eq_dec : EqDecision obj.
Proof. solve_decision. Defined.

(** ** Collaborators

    Callables supplied from outside the module act on the object store and
    either return a value or raise. *)
Inductive cres : Type :=
| CRet (v : value) (h : gmap loc obj)
| CRaise (e : exn) (h : gmap loc obj).

Definition callable : Type := gmap loc obj → value → cres.

Definition cres_heap (r : cres) : gmap loc obj :=
  match r with CRet _ h => h | CRaise _ h => h end.

(** Calls that leave the module, in the order they happen.  An
    [ImageReader] is an object like any other and is passed through as it
    is ([VNone] when the caller gives none). *)
Inductive event : Type :=
| EvImageOpen (path : string)
| EvDefaultLoader (d : value)
| EvLoadImaged (d : value) (reader : value).

#[global] Instance event_eq_dec : EqDecision event.
Proof. solve_decision. Defined.

Record state : Type := mkState {
  heap : gmap loc obj;
  trace : list event
}.

Inductive outcome (A : Type) : Type :=
| Ret (a : A) (s : state)
| Raise (e : exn) (s : state).
Arguments Ret {A} a s.
Arguments Raise {A} e s.

Definition final {A} (o : outcome A) : state :=
  match o with Ret _ s => s | Raise _ s => s end.

Definition M (A : Type) : Type := state → outcome A.

#[local] Instance M_ret : MRet M := λ A a s, Ret a s.
#[local] Instance M_bind : MBind M := λ A B f m s,
  match m s with
  | Ret a s' => f a s'
  | Raise e s' => Raise e s'
  end.

Definition raise {A} (e : exn) : M A := λ s, Raise e s.

Definition get_heap : M (gmap loc obj) := λ s, Ret (heap s) s.

Definition put_heap (h : gmap loc obj) : M unit :=
  λ s, Ret tt (mkState h (trace s)).

Definition emit (e : event) : M unit :=
  λ s, Ret tt (mkState (heap s) (trace s ++ [e])).

(** Locations a value or an object refers to. *)
Definition value_refs (v : value) : gset loc :=
  match v with VRef l => {[l]} | _ => ∅ end.

Definition obj_refs (o : obj) : gset loc :=
  match o with
  | ODict m => ⋃ (value_refs <$> (map_to_list m).*2)
  | ONdarray _ _ => ∅
  | OMetaTensor x meta => {[x; meta]}
  end.

Definition heap_refs (h : gmap loc obj) : gset loc :=
  ⋃ (obj_refs <$> (map_to_list h).*2).

(** A new object lives at a location that is not in use: it holds no object
    and no object of the store refers to it. *)
Definition new_loc (h : gmap loc obj) : loc := fresh (dom h ∪ heap_refs h).

Definition alloc (o : obj) : M loc := λ s,
  let l := new_loc (heap s) in
  Ret l (mkState (<[l := o]> (heap s)) (trace s)).

(** Calling a collaborator on the current store. *)
Definition invoke (f : callable) (arg : value) : M value := λ s,
  match f (heap s) arg with
  | CRet v h => Ret v (mkState h (trace s))
  | CRaise e h => Raise e (mkState h (trace s))
  end.

(** ** Python primitives used by the transforms *)

(** [dict(data)]: a new dictionary with the bindings of [data]. *)
Definition dict_copy (data : value) : M value :=
  h ← get_heap;
  match data with
  | VRef l =>
    match h !! l with
    | Some (ODict m) => d ← alloc (ODict m); mret (VRef d)
    | _ => raise TypeError
    end
  | _ => raise TypeError
  end.

(** [d[key]] *)
Definition getitem (d : value) (key : string) : M value :=
  h ← get_heap;
  match d with
  | VRef l =>
    match h !! l with
    | Some (ODict m) =>
      match m !! key with
      | Some v => mret v
      | None => raise (KeyError key)
      end
    | _ => raise TypeError
    end
  | _ => raise TypeError
  end.

(** [d[key] = v] on a dictionary *)
Definition setitem (d : value) (key : string) (v : value) : M unit :=
  h ← get_heap;
  match d with
  | VRef l =>
    match h !! l with
    | Some (ODict m) => put_heap (<[l := ODict (<[key := v]> m)]> h)
    | _ => raise TypeError
    end
  | _ => raise TypeError
  end.

(** [d.setdefault(key, {})]: the stored value when [key] is bound, else a
    new empty mapping, which is stored under [key] first. *)
Definition setdefault_empty (d : value) (key : string) : M value :=
  h ← get_heap;
  match d with
  | VRef l =>
    match h !! l with
    | Some (ODict m) =>
      match m !! key with
      | Some v => mret v
      | None =>
        e ← alloc (ODict ∅);
        setitem d key (VRef e);;
        mret (VRef e)
      end
    | _ => raise TypeError
    end
  | _ => raise TypeError
  end.

(** [isinstance(v, str)] *)
Definition is_str (v : value) : bool :=
  match v with VStr _ => true | _ => false end.

(** [isinstance(v, np.ndarray)] *)
Definition is_ndarray (h : gmap loc obj) (v : value) : bool :=
  match v with
  | VRef l => match h !! l with Some (ONdarray _ _) => true | _ => false end
  | _ => false
  end.

(** The array storage behind an array or a tensor. *)
Definition storage (h : gmap loc obj) (v : value) : option loc :=
  match v with
  | VRef l =>
    match h !! l with
    | Some (ONdarray _ _) => Some l
    | Some (OMetaTensor x _) =>
      match h !! x with Some (ONdarray _ _) => Some x | _ => None end
    | _ => None
    end
  | _ => None
  end.

(** [v.shape], for arrays and tensors. *)
Definition shape_of (h : gmap loc obj) (v : value) : option (list nat) :=
  x ← storage h v;
  match h !! x with Some (ONdarray sh _) => Some sh | _ => None end.

Definition getattr_shape (v : value) : M (list nat) :=
  h ← get_heap;
  match shape_of h v with
  | Some sh => mret sh
  | None => raise AttributeError
  end.

(** [MetaTensor(x, meta=meta_dict)] *)
Definition MetaTensor (x meta : value) : M value :=
  h ← get_heap;
  match storage h x, meta with
  | Some a, VRef md => t ← alloc (OMetaTensor a md); mret (VRef t)
  | _, _ => raise TypeError
  end.

(** [for key in keys] and [for i, key in enumerate(keys)], threading the
    local variable the body assigns. *)
Fixpoint for_enumerate {A} (body : nat → string → A → M A)
    (i : nat) (keys : list string) (acc : A) : M A :=
  match keys with
  | [] => mret acc
  | key :: keys' => acc' ← body i key acc; for_enumerate body (S i) keys' acc'
  end.

(** ** The shared conversion block (lines 55-61 and 90-96)

    [meta_dict = d.setdefault(meta_dict_key, {})], the three metadata
    entries, and [d[key] = MetaTensor(d[key], meta=meta_dict)]. *)
Definition wrap_direct (d : value) (key meta_dict_key : string) : M unit :=
  meta_dict ← setdefault_empty d meta_dict_key;
  v ← getitem d key;
  sh ← getattr_shape v;
  setitem meta_dict "spatial_shape" (VTuple (removelast sh));;
  setitem meta_dict "original_channel_dim" (VInt (-1));;
  setitem meta_dict "original_affine" VNone;;
  image_np ← getitem d key;
  t ← MetaTensor image_np meta_dict;
  setitem d key t.

Section Transforms.

(** Names the module takes from its environment: the image decoder behind
    [np.asarray(Image.open(path))] ([None] when the file cannot be read),
    the framework's metadata suffix [PostFix.meta()], and the inherited
    [LoadImaged.__call__(d, reader)]. *)
Variable Image_open : string → option (list nat * list Z).
Variable PostFix_meta : string.
Variable LoadImaged_call : gmap loc obj → value → value → cres.

Definition np_asarray_Image_open (path : string) : M (list nat * list Z) :=
  emit (EvImageOpen path);;
  match Image_open path with
  | Some a => mret a
  | None => raise (IOError path)
  end.

(** ** LoadImageTensord *)

Record LoadImageTensord : Type := mkLoadImageTensord {
  lit_keys : list string;
  lit_allow_missing_keys : bool;
  lit_load_image_d : option callable
}.

Definition LoadImageTensord_init (keys : list string)
    (allow_missing_keys : option bool) (load_image_d : option callable)
    : LoadImageTensord :=
  mkLoadImageTensord keys (default false allow_missing_keys) load_image_d.

Definition LoadImageTensord_body (d : value) (key : string)
    (use_default : bool) : M bool :=
  v ← getitem d key;
  match v with
  | VStr path =>
    image_np ← np_asarray_Image_open path;
    mret use_default
  | _ =>
    wrap_direct d key (key +:+ "_" +:+ PostFix_meta);;
    mret false
  end.

Definition LoadImageTensord_loop (self : LoadImageTensord) (d : value) : M bool :=
  for_enumerate (λ _ key use_default, LoadImageTensord_body d key use_default)
    0 (lit_keys self) true.

Definition LoadImageTensord_call (self : LoadImageTensord) (data : value)
    : M value :=
  d ← dict_copy data;
  use_default ← LoadImageTensord_loop self d;
  if use_default : bool then
    match lit_load_image_d self with
    | Some load_image_d => emit (EvDefaultLoader d);; invoke load_image_d d
    | None => raise TypeError
    end
  else mret d.

(** ** LoadImageExd *)

Record LoadImageExd : Type := mkLoadImageExd {
  lie_keys : list string;
  lie_meta_key_postfix : list string;
  lie_allow_missing_keys : bool
}.

Definition LoadImageExd_body (self : LoadImageExd) (d : value) (i : nat)
    (key : string) (direct_image : bool) : M bool :=
  v ← getitem d key;
  h ← get_heap;
  if is_ndarray h v then
    match lie_meta_key_postfix self !! i with
    | Some postfix =>
      wrap_direct d key (key +:+ "_" +:+ postfix);;
      mret true
    | None => raise IndexError
    end
  else mret direct_image.

Definition LoadImageExd_loop (self : LoadImageExd) (d : value) : M bool :=
  for_enumerate (LoadImageExd_body self d) 0 (lie_keys self) false.

Definition LoadImageExd_call (self : LoadImageExd) (data reader : value)
    : M value :=
  d ← dict_copy data;
  direct_image ← LoadImageExd_loop self d;
  if negb direct_image then
    emit (EvLoadImaged d reader);;
    invoke (λ h v, LoadImaged_call h v reader) d
  else mret d.

(** ** NormalizeLabeld *)

Record NormalizeLabeld : Type := mkNormalizeLabeld {
  nl_keys : list string;
  nl_allow_missing_keys : bool;
  nl_value : Z
}.

Definition NormalizeLabeld_init (keys : list string)
    (allow_missing_keys : option bool) (value : option Z) : NormalizeLabeld :=
  mkNormalizeLabeld keys (default false allow_missing_keys) (default 1 value).

(** Elementwise effect of [label[label > 0] = value]. *)
Definition fill_positive (value : Z) (xs : list Z) : list Z :=
  (λ x, if (0 <? x)%Z then value else x) <$> xs.

(** [label[label > 0] = value]: written into the array storage in place. *)
Definition setitem_positive (label : value) (value : Z) : M unit :=
  h ← get_heap;
  match storage h label with
  | Some a =>
    match h !! a with
    | Some (ONdarray sh xs) =>
      put_heap (<[a := ONdarray sh (fill_positive value xs)]> h)
    | _ => raise TypeError
    end
  | None => raise TypeError
  end.

Definition NormalizeLabeld_body (self : NormalizeLabeld) (d : value)
    (key : string) : M unit :=
  label ← getitem d key;
  setitem_positive label (nl_value self);;
  setitem d key label.

Definition NormalizeLabeld_call (self : NormalizeLabeld) (data : value)
    : M value :=
  d ← dict_copy data;
  for_enumerate (λ _ key _, NormalizeLabeld_body self d key)
    0 (nl_keys self) tt;;
  mret d.

End Transforms.

(** * Reasoning principles *)

(** ** Unfolding one monadic step *)

Lemma bind_eq {A B} (c : M A) (f : A → M B) s :
  (c ≫= f) s = match c s with Ret a s' => f a s' | Raise e s' => Raise e s' end.
Proof. reflexivity. Qed.

Lemma ret_eq {A} (a : A) s : (mret a : M A) s = Ret a s.
Proof. reflexivity. Qed.

Lemma getitem_eq l m key s :
  heap s !! l = Some (ODict m) →
  getitem (VRef l) key s =
    match m !! key with Some v => Ret v s | None => Raise (KeyError key) s end.
Proof.
  intros Hl. unfold getitem. rewrite bind_eq. simpl. rewrite Hl.
  by destruct (m !! key).
Qed.

Lemma setitem_eq l m key v s :
  heap s !! l = Some (ODict m) →
  setitem (VRef l) key v s =
    Ret tt (mkState (<[l := ODict (<[key := v]> m)]> (heap s)) (trace s)).
Proof. intros Hl. unfold setitem. rewrite bind_eq. simpl. by rewrite Hl. Qed.

Lemma alloc_eq o s :
  alloc o s =
    Ret (new_loc (heap s))
        (mkState (<[new_loc (heap s) := o]> (heap s)) (trace s)).
Proof. reflexivity. Qed.

Lemma new_loc_None (h : gmap loc obj) : h !! new_loc h = None.
Proof.
  apply not_elem_of_dom. pose proof (is_fresh (dom h ∪ heap_refs h)).
  unfold new_loc. set_solver.
Qed.

Lemma new_loc_ne (h : gmap loc obj) l o : h !! l = Some o → l ≠ new_loc h.
Proof. intros Hl ->. by rewrite new_loc_None in Hl. Qed.

Lemma elem_of_heap_refs (h : gmap loc obj) x o l :
  h !! x = Some o → l ∈ obj_refs o → l ∈ heap_refs h.
Proof.
  intros Hx Hl. unfold heap_refs. apply elem_of_union_list.
  exists (obj_refs o). split; [|done].
  apply list_elem_of_fmap. exists o. split; [done|].
  apply list_elem_of_fmap. exists (x, o). split; [done|].
  by apply elem_of_map_to_list.
Qed.

Lemma elem_of_dict_refs (m : gmap string value) n l :
  m !! n = Some (VRef l) → l ∈ obj_refs (ODict m).
Proof.
  intros Hn. simpl. apply elem_of_union_list.
  exists (value_refs (VRef l)). split; [|simpl; set_solver].
  apply list_elem_of_fmap. exists (VRef l). split; [done|].
  apply list_elem_of_fmap. exists (n, VRef l). split; [done|].
  by apply elem_of_map_to_list.
Qed.

(** No dictionary of the store binds a key to a new location. *)
Lemma new_loc_unreferenced (h : gmap loc obj) x m n :
  h !! x = Some (ODict m) → m !! n ≠ Some (VRef (new_loc h)).
Proof.
  intros Hx Hn.
  pose proof (is_fresh (dom h ∪ heap_refs h)) as Hf.
  apply Hf, elem_of_union_r. eapply elem_of_heap_refs; [done|].
  by eapply elem_of_dict_refs.
Qed.

Lemma setdefault_empty_eq l m key s :
  heap s !! l = Some (ODict m) →
  setdefault_empty (VRef l) key s =
    match m !! key with
    | Some v => Ret v s
    | None =>
      let e := new_loc (heap s) in
      Ret (VRef e)
          (mkState (<[l := ODict (<[key := VRef e]> m)]>
                      (<[e := ODict ∅]> (heap s))) (trace s))
    end.
Proof.
  intros Hl. unfold setdefault_empty. rewrite bind_eq. simpl. rewrite Hl.
  destruct (m !! key); [done |].
  rewrite bind_eq, alloc_eq, bind_eq.
  erewrite setitem_eq; [done |]. simpl.
  rewrite lookup_insert_ne; [done |]. symmetry. by eapply new_loc_ne.
Qed.

Lemma dict_copy_eq l m s :
  heap s !! l = Some (ODict m) →
  dict_copy (VRef l) s =
    Ret (VRef (new_loc (heap s)))
        (mkState (<[new_loc (heap s) := ODict m]> (heap s)) (trace s)).
Proof. intros Hl. unfold dict_copy. rewrite bind_eq. simpl. by rewrite Hl. Qed.

Lemma getattr_shape_eq v s :
  getattr_shape v s =
    match shape_of (heap s) v with
    | Some sh => Ret sh s
    | None => Raise AttributeError s
    end.
Proof. unfold getattr_shape. rewrite bind_eq. simpl. by destruct shape_of. Qed.

Lemma MetaTensor_eq v md a s :
  storage (heap s) v = Some a →
  MetaTensor v (VRef md) s =
    Ret (VRef (new_loc (heap s)))
        (mkState (<[new_loc (heap s) := OMetaTensor a md]> (heap s)) (trace s)).
Proof. intros Hv. unfold MetaTensor. rewrite bind_eq. simpl. by rewrite Hv. Qed.

(** ** Array storage *)

Lemma storage_Some h v a :
  storage h v = Some a →
  ∃ l sh xs, v = VRef l ∧ h !! a = Some (ONdarray sh xs) ∧
    (l = a ∨ ∃ md, h !! l = Some (OMetaTensor a md)).
Proof.
  unfold storage. destruct v as [| | | |l]; try done.
  destruct (h !! l) as [[m|sh xs|x md]|] eqn:Hl; try done.
  - intros [= <-]. eauto 10.
  - destruct (h !! x) as [[|sh xs|]|] eqn:Hx; try done.
    intros [= <-]. eauto 10.
Qed.

Lemma shape_of_Some h v sh :
  shape_of h v = Some sh →
  ∃ a xs, storage h v = Some a ∧ h !! a = Some (ONdarray sh xs).
Proof.
  unfold shape_of. destruct (storage h v) as [a|] eqn:Hs; [|done]. simpl.
  destruct (h !! a) as [[| sh' xs|]|] eqn:Ha; try done.
  intros [= <-]. eauto.
Qed.

Lemma storage_ndarray h a sh xs :
  h !! a = Some (ONdarray sh xs) → storage h (VRef a) = Some a.
Proof. intros Ha. unfold storage. by rewrite Ha. Qed.

Lemma storage_tensor h t a md sh xs :
  h !! t = Some (OMetaTensor a md) → h !! a = Some (ONdarray sh xs) →
  storage h (VRef t) = Some a.
Proof. intros Ht Ha. unfold storage. by rewrite Ht, Ha. Qed.

Lemma storage_insert_dict h l m m' v :
  h !! l = Some (ODict m) →
  storage (<[l := ODict m']> h) v = storage h v.
Proof.
  intros Hl. unfold storage. destruct v as [| | | |x]; try done.
  destruct (decide (x = l)) as [->|Hx].
  - by rewrite lookup_insert_eq, Hl.
  - rewrite lookup_insert_ne by done.
    destruct (h !! x) as [[|sh xs|y md]|]; try done.
    destruct (decide (y = l)) as [->|Hy].
    + by rewrite lookup_insert_eq, Hl.
    + by rewrite lookup_insert_ne.
Qed.

Lemma storage_insert_fresh h e o v a :
  h !! e = None → storage h v = Some a → storage (<[e := o]> h) v = Some a.
Proof.
  intros He Hs. destruct (storage_Some _ _ _ Hs) as (l & sh & xs & -> & Ha & Hl).
  assert (a ≠ e) by (intros ->; congruence).
  destruct Hl as [->|[md Hl]].
  - eapply storage_ndarray. by rewrite lookup_insert_ne.
  - assert (l ≠ e) by (intros ->; congruence).
    eapply storage_tensor; by rewrite lookup_insert_ne.
Qed.

Lemma setitem_Ret v key x s u s' :
  setitem v key x s = Ret u s' →
  ∃ l m, v = VRef l ∧ heap s !! l = Some (ODict m) ∧
    s' = mkState (<[l := ODict (<[key := x]> m)]> (heap s)) (trace s).
Proof.
  unfold setitem. rewrite bind_eq. simpl.
  destruct v as [| | | |l]; try done.
  destruct (heap s !! l) as [[m| |]|] eqn:Hl; try done.
  intros [= _ <-]. eauto.
Qed.

Lemma getitem_Ret x key s v s' :
  getitem x key s = Ret v s' →
  ∃ l m, x = VRef l ∧ heap s !! l = Some (ODict m) ∧ m !! key = Some v ∧ s' = s.
Proof.
  unfold getitem. rewrite bind_eq. simpl.
  destruct x as [| | | |l]; try done.
  destruct (heap s !! l) as [[m| |]|] eqn:Hl; try done.
  destruct (m !! key) as [w|] eqn:Hk; [|done].
  intros [= <- <-]. eauto 10.
Qed.

Lemma getitem_final x key s : final (getitem x key s) = s.
Proof. unfold getitem. rewrite bind_eq. simpl. by repeat case_match. Qed.

(** ** What the conversion block does when it succeeds *)

Definition meta_entries (sh : list nat) (mm : gmap string value)
    : gmap string value :=
  <["original_affine" := VNone]>
    (<["original_channel_dim" := VInt (-1)]>
       (<["spatial_shape" := VTuple (removelast sh)]> mm)).

Lemma wrap_direct_spec d dm key mk s u s' :
  heap s !! d = Some (ODict dm) →
  dm !! mk ≠ Some (VRef d) →
  wrap_direct (VRef d) key mk s = Ret u s' →
  ∃ v a sh xs md mm t,
    dm !! key = Some v ∧ storage (heap s) v = Some a ∧
    heap s !! a = Some (ONdarray sh xs) ∧
    md ≠ d ∧ key ≠ mk ∧
    ((dm !! mk = Some (VRef md) ∧ heap s !! md = Some (ODict mm)) ∨
     (dm !! mk = None ∧ heap s !! md = None ∧ mm = ∅ ∧
      ∀ n, dm !! n ≠ Some (VRef md))) ∧
    heap s !! t = None ∧ t ≠ md ∧ (∀ n, dm !! n ≠ Some (VRef t)) ∧
    heap s' =
      <[d := ODict (<[key := VRef t]> (<[mk := VRef md]> dm))]>
        (<[t := OMetaTensor a md]>
           (<[md := ODict (meta_entries sh mm)]> (heap s))) ∧
    trace s' = trace s.
Proof.
  intros Hd Hmk. unfold wrap_direct.
  rewrite bind_eq, (setdefault_empty_eq _ _ _ _ Hd).
  destruct (dm !! mk) as [w|] eqn:Hw.
  - (* the metadata key is bound: its value is used *)
    rewrite bind_eq, (getitem_eq _ _ _ _ Hd).
    destruct (dm !! key) as [v|] eqn:Hv; [|done].
    rewrite bind_eq, getattr_shape_eq.
    destruct (shape_of (heap s) v) as [sh|] eqn:Hsh; [|done].
    destruct (shape_of_Some _ _ _ Hsh) as (a & xs & Hst & Ha).
    rewrite bind_eq.
    destruct (setitem w _ _ s) as [[] s1|] eqn:H1; [|done].
    destruct (setitem_Ret _ _ _ _ _ _ H1) as (md & mm & -> & Hmd & ->).
    assert (md ≠ d) as Hne by congruence.
    assert (key ≠ mk) as Hkey.
    { intros ->. rewrite Hw in Hv. injection Hv as <-.
      unfold storage in Hst. by rewrite Hmd in Hst. }
    rewrite bind_eq. erewrite setitem_eq by (simpl; apply lookup_insert_eq).
    rewrite bind_eq. erewrite setitem_eq by (simpl; apply lookup_insert_eq).
    simpl. rewrite !insert_insert_eq.
    rewrite bind_eq. erewrite getitem_eq
      by (simpl; rewrite lookup_insert_ne by done; exact Hd).
    rewrite Hv, bind_eq.
    erewrite MetaTensor_eq
      by (simpl; erewrite storage_insert_dict by exact Hmd; exact Hst).
    simpl. set (h3 := <[md:=_]> (heap s)). set (t := new_loc h3).
    assert (h3 !! d = Some (ODict dm)) as Hd3
      by (unfold h3; by rewrite lookup_insert_ne).
    assert (heap s !! t = None ∧ t ≠ md) as [Ht Htm].
    { pose proof (new_loc_None h3) as Hf.
      fold t in Hf. apply lookup_insert_None in Hf. by destruct Hf. }
    assert (t ≠ d) by congruence.
    erewrite setitem_eq
      by (simpl; rewrite !lookup_insert_ne by done; exact Hd3).
    intros [= _ <-]. simpl.
    exists v, a, sh, xs, md, mm, t.
    rewrite (insert_id dm mk) by done. unfold meta_entries.
    repeat split; try done; [by left|].
    intros n. by eapply new_loc_unreferenced.
  - (* the metadata key is not bound: a new mapping is stored first *)
    simpl. set (e := new_loc (heap s)).
    assert (heap s !! e = None) as He by apply new_loc_None.
    assert (e ≠ d) as Hne by congruence.
    assert (∀ n, dm !! n ≠ Some (VRef e)) as Hue
      by (intros n; by eapply new_loc_unreferenced).
    set (h1 := <[d:=ODict (<[mk:=VRef e]> dm)]> (<[e:=ODict ∅]> (heap s))).
    assert (h1 !! d = Some (ODict (<[mk:=VRef e]> dm))) as Hd1
      by apply lookup_insert_eq.
    assert (h1 !! e = Some (ODict ∅)) as He1.
    { unfold h1. rewrite lookup_insert_ne by done. apply lookup_insert_eq. }
    rewrite bind_eq. erewrite getitem_eq by exact Hd1.
    destruct (<[mk:=VRef e]> dm !! key) as [v|] eqn:Hv; [|done].
    rewrite bind_eq, getattr_shape_eq. simpl.
    destruct (shape_of h1 v) as [sh|] eqn:Hsh; [|done].
    destruct (shape_of_Some _ _ _ Hsh) as (a & xs & Hst & Ha).
    assert (key ≠ mk) as Hkey.
    { intros ->. rewrite lookup_insert_eq in Hv. injection Hv as <-.
      unfold storage in Hst. by rewrite He1 in Hst. }
    rewrite lookup_insert_ne in Hv by done.
    assert (storage (heap s) v = Some a ∧ heap s !! a = Some (ONdarray sh xs))
      as [Hst0 Ha0].
    { assert (a ≠ d) by congruence. assert (a ≠ e) by congruence.
      unfold h1 in Ha. rewrite !lookup_insert_ne in Ha by done.
      split; [|done].
      destruct (storage_Some _ _ _ Hst) as (l & ? & ? & -> & _ & Hl).
      destruct Hl as [->|[md Hl]]; [by eapply storage_ndarray|].
      assert (l ≠ d) by congruence. assert (l ≠ e) by congruence.
      unfold h1 in Hl. rewrite !lookup_insert_ne in Hl by done.
      by eapply storage_tensor. }
    rewrite bind_eq. erewrite setitem_eq by exact He1.
    rewrite bind_eq. erewrite setitem_eq by (simpl; apply lookup_insert_eq).
    rewrite bind_eq. erewrite setitem_eq by (simpl; apply lookup_insert_eq).
    simpl. rewrite !insert_insert_eq.
    rewrite bind_eq. erewrite getitem_eq
      by (simpl; rewrite lookup_insert_ne by done; exact Hd1).
    rewrite lookup_insert_ne, Hv, bind_eq by done.
    erewrite MetaTensor_eq
      by (simpl; erewrite storage_insert_dict by exact He1; exact Hst).
    simpl. set (h3 := <[e:=_]> h1). set (t := new_loc h3).
    assert (h3 !! d = Some (ODict (<[mk:=VRef e]> dm))) as Hd3
      by (unfold h3; by rewrite lookup_insert_ne).
    assert (h1 !! t = None ∧ t ≠ e) as [Ht Hte].
    { pose proof (new_loc_None h3) as Hf.
      fold t in Hf. apply lookup_insert_None in Hf. by destruct Hf. }
    assert (t ≠ d) by congruence.
    erewrite setitem_eq
      by (simpl; rewrite !lookup_insert_ne by done; exact Hd3).
    intros [= _ <-]. simpl.
    exists v, a, sh, xs, e, ∅, t.
    assert (heap s !! t = None) as Ht0.
    { unfold h1 in Ht. by rewrite !lookup_insert_ne in Ht. }
    repeat split; try done; [by right| |].
    + intros n Hn. destruct (decide (n = mk)) as [->|]; [congruence|].
      eapply (new_loc_unreferenced h3 d _ n); [done|].
      by rewrite lookup_insert_ne.
    + unfold h1, h3, h1. apply map_eq. intros i.
      rewrite !lookup_insert. unfold meta_entries.
      repeat case_decide; congruence.
Qed.

(** ** Successful runs of the per-key loops

    Both loaders run the conversion block on the keys whose value passes a
    test ([not isinstance(_, str)] in [LoadImageTensord],
    [isinstance(_, np.ndarray)] in [LoadImageExd]) and leave the working
    copy alone on the others.  [lsteps] records the iterations of a run
    that raised nothing; [tgt key mk] says that [mk] is a metadata key the
    transform uses for [key]. *)

Section Loop.

Variable direct : gmap loc obj → value → bool.
Variable tgt : string → string → Prop.
Variable d : loc.

Inductive lsteps : list string → state → state → Prop :=
| lsteps_nil s : lsteps [] s s
| lsteps_skip key keys s s1 s' v :
    getitem (VRef d) key s = Ret v s →
    direct (heap s) v = false →
    heap s1 = heap s →
    lsteps keys s1 s' →
    lsteps (key :: keys) s s'
| lsteps_wrap key mk keys s s1 s' v :
    tgt key mk →
    getitem (VRef d) key s = Ret v s →
    direct (heap s) v = true →
    wrap_direct (VRef d) key mk s = Ret tt s1 →
    lsteps keys s1 s' →
    lsteps (key :: keys) s s'.

(** The working copy is a dictionary that does not contain itself. *)
Definition copy_ok (s : state) : Prop :=
  ∃ dm, heap s !! d = Some (ODict dm) ∧ ∀ n, dm !! n ≠ Some (VRef d).

(** Objects never change kind: arrays and tensors stay as they are, and a
    dictionary only gains keys. *)
Definition heap_le (h h' : gmap loc obj) : Prop :=
  ∀ l o, h !! l = Some o →
    match o with
    | ODict mm => ∃ mm', h' !! l = Some (ODict mm') ∧ dom mm ⊆ dom mm'
    | _ => h' !! l = Some o
    end.

Lemma heap_le_refl h : heap_le h h.
Proof. intros l o Hl. destruct o; eauto. Qed.

Lemma heap_le_trans h1 h2 h3 : heap_le h1 h2 → heap_le h2 h3 → heap_le h1 h3.
Proof.
  intros H12 H23 l o Hl. specialize (H12 l o Hl).
  destruct o as [mm| |].
  - destruct H12 as (mm' & Hl' & Hsub).
    destruct (H23 l _ Hl') as (mm'' & Hl'' & Hsub').
    exists mm''. split; [done|]. by etrans.
  - apply (H23 _ _ H12).
  - apply (H23 _ _ H12).
Qed.

Lemma dom_meta_entries sh (mm : gmap string value) :
  dom mm ⊆ dom (meta_entries sh mm).
Proof.
  unfold meta_entries. rewrite !dom_insert.
  do 2 (etrans; [|apply union_subseteq_r]). apply union_subseteq_r.
Qed.

Lemma wrap_direct_le key mk s u s' :
  copy_ok s → wrap_direct (VRef d) key mk s = Ret u s' →
  copy_ok s' ∧ heap_le (heap s) (heap s').
Proof.
  intros (dm & Hd & Hself) Hw.
  destruct (wrap_direct_spec _ _ _ _ _ _ _ Hd (Hself mk) Hw)
    as (v & a & sh & xs & md & mm & t & Hv & Hst & Ha & Hmd & Hkey & Hcase
        & Ht & Htm & Hut & Hh & _).
  assert (t ≠ d) by congruence.
  split; [|rewrite Hh; clear Hh].
  - unfold copy_ok. rewrite Hh. eexists. split; [apply lookup_insert_eq|].
    intros n. rewrite !lookup_insert.
    repeat case_decide; try congruence; apply Hself.
  - intros l o Hl.
    assert (l ≠ t) by congruence.
    destruct (decide (l = d)) as [->|Hld].
    { rewrite Hd in Hl. injection Hl as <-. eexists.
      split; [apply lookup_insert_eq|]. rewrite !dom_insert.
      etrans; [|apply union_subseteq_r]. apply union_subseteq_r. }
    rewrite lookup_insert_ne, lookup_insert_ne by done.
    destruct (decide (l = md)) as [->|Hlm].
    { destruct Hcase as [[_ Hm]|[_ [Hm _]]]; [|congruence].
      rewrite Hm in Hl. injection Hl as <-. eexists.
      split; [apply lookup_insert_eq|]. apply dom_meta_entries. }
    rewrite lookup_insert_ne by done. destruct o; eauto.
Qed.

(** The effect of one conversion, read off the final store. *)
Lemma wrap_direct_step key mk s u s' dm :
  heap s !! d = Some (ODict dm) →
  (∀ n, dm !! n ≠ Some (VRef d)) →
  wrap_direct (VRef d) key mk s = Ret u s' →
  ∃ v a sh xs md mm t,
    dm !! key = Some v ∧ storage (heap s) v = Some a ∧
    heap s !! a = Some (ONdarray sh xs) ∧
    key ≠ mk ∧
    ((dm !! mk = Some (VRef md) ∧ heap s !! md = Some (ODict mm)) ∨
     (dm !! mk = None ∧ heap s !! md = None ∧ mm = ∅ ∧
      ∀ n, dm !! n ≠ Some (VRef md))) ∧
    heap s !! t = None ∧ (∀ n, dm !! n ≠ Some (VRef t)) ∧
    md ≠ d ∧ t ≠ d ∧ t ≠ md ∧
    heap s' !! d = Some (ODict (<[key := VRef t]> (<[mk := VRef md]> dm))) ∧
    heap s' !! t = Some (OMetaTensor a md) ∧
    heap s' !! md = Some (ODict (meta_entries sh mm)) ∧
    (∀ l, l ≠ d → l ≠ t → l ≠ md → heap s' !! l = heap s !! l) ∧
    trace s' = trace s.
Proof.
  intros Hd Hself Hw.
  destruct (wrap_direct_spec _ _ _ _ _ _ _ Hd (Hself mk) Hw)
    as (v & a & sh & xs & md & mm & t & Hv & Hst & Ha & Hmd & Hkey & Hcase
        & Ht & Htm & Hut & Hh & Htr).
  assert (t ≠ d) by congruence.
  exists v, a, sh, xs, md, mm, t. rewrite Hh.
  repeat split; try done.
  - apply lookup_insert_eq.
  - rewrite lookup_insert_ne by done. apply lookup_insert_eq.
  - rewrite !lookup_insert_ne by done. apply lookup_insert_eq.
  - intros l ? ? ?. by rewrite !lookup_insert_ne.
Qed.

Lemma lsteps_le keys s s' :
  lsteps keys s s' → copy_ok s → copy_ok s' ∧ heap_le (heap s) (heap s').
Proof.
  induction 1 as [s|key keys s s1 s' v _ _ Hh _ IH
                  |key mk keys s s1 s' v _ _ _ Hw _ IH]; intros Hok.
  - split; [done|apply heap_le_refl].
  - unfold copy_ok in IH. rewrite Hh in IH. by apply IH.
  - destruct (wrap_direct_le _ _ _ _ _ Hok Hw) as [Hok1 Hle1].
    destruct (IH Hok1) as [Hok' Hle']. split; [done|].
    by eapply heap_le_trans.
Qed.

(** *** Bindings that are never rewritten

    A key bound to an immediate value (a path string, in particular) or to
    a dictionary keeps its binding in the working copy. *)
Definition inert (h : gmap loc obj) (v : value) : Prop :=
  match v with
  | VRef l => ∃ mm, h !! l = Some (ODict mm)
  | _ => True
  end.

Lemma inert_no_storage h v : inert h v → storage h v = None.
Proof.
  destruct v as [| | | |l]; try done. intros [mm Hl].
  unfold storage. by rewrite Hl.
Qed.

Lemma inert_le h h' v : heap_le h h' → inert h v → inert h' v.
Proof.
  intros Hle. destruct v as [| | | |l]; try done. intros [mm Hl].
  destruct (Hle _ _ Hl) as (mm' & Hl' & _). by exists mm'.
Qed.

Lemma wrap_direct_keeps key mk s u s' dm n w :
  heap s !! d = Some (ODict dm) →
  (∀ n, dm !! n ≠ Some (VRef d)) →
  wrap_direct (VRef d) key mk s = Ret u s' →
  dm !! n = Some w → (n = key → inert (heap s) w) →
  ∃ dm', heap s' !! d = Some (ODict dm') ∧ dm' !! n = Some w.
Proof.
  intros Hd Hself Hw Hn Hin.
  destruct (wrap_direct_step _ _ _ _ _ _ Hd Hself Hw)
    as (v & a & sh & xs & md & mm & t & Hv & Hsto & Ha & Hkey & Hcase & Ht
        & Hut & Hmd & Htd & Htm & Hd' & _).
  eexists. split; [exact Hd'|].
  assert (n ≠ key) as Hnk.
  { intros ->. specialize (Hin eq_refl). apply inert_no_storage in Hin.
    congruence. }
  rewrite lookup_insert_ne by done.
  destruct (decide (mk = n)) as [<-|]; [|by rewrite lookup_insert_ne].
  rewrite lookup_insert_eq.
  destruct Hcase as [[? _]|[? _]]; congruence.
Qed.

Lemma lsteps_inert keys s s' :
  lsteps keys s s' → copy_ok s →
  ∀ dm n w, heap s !! d = Some (ODict dm) → dm !! n = Some w →
    inert (heap s) w →
    ∃ dm', heap s' !! d = Some (ODict dm') ∧ dm' !! n = Some w.
Proof.
  induction 1 as [s|key keys s s1 s' v _ _ Hh _ IH
                  |key mk keys s s1 s' v _ _ _ Hw _ IH];
    intros Hok dm n w Hd Hn Hin.
  - eauto.
  - unfold copy_ok in IH. rewrite Hh in IH. by eapply IH.
  - destruct (wrap_direct_le _ _ _ _ _ Hok Hw) as [Hok1 Hle1].
    destruct Hok as (dm0 & Hd0 & Hself).
    assert (dm0 = dm) as -> by congruence.
    destruct (wrap_direct_keeps _ _ _ _ _ _ _ _ Hd Hself Hw Hn (λ _, Hin))
      as (dm1 & Hd1 & Hn1).
    eapply IH; eauto using inert_le.
Qed.

(** *** Bindings made during the run

    A binding of the working copy that differs from the caller's refers to
    an object made during the run. *)
Definition meta_names : gset string :=
  {["spatial_shape"; "original_channel_dim"; "original_affine"]}.

Definition fresh_or_old (h0 : gmap loc obj) (m0 : gmap string value)
    (s : state) : Prop :=
  heap_le h0 (heap s) ∧
  ∃ dm, heap s !! d = Some (ODict dm) ∧
    ∀ n l, dm !! n = Some (VRef l) → m0 !! n = Some (VRef l) ∨ h0 !! l = None.

Lemma lsteps_fresh_or_old h0 m0 keys s s' :
  lsteps keys s s' → copy_ok s →
  fresh_or_old h0 m0 s → fresh_or_old h0 m0 s'.
Proof.
  induction 1 as [s|key keys s s1 s' v _ _ Hh _ IH
                  |key mk keys s s1 s' v _ _ _ Hw _ IH];
    intros Hok Hfo.
  - done.
  - unfold copy_ok, fresh_or_old in IH. rewrite Hh in IH. by apply IH.
  - destruct (wrap_direct_le _ _ _ _ _ Hok Hw) as [Hok1 Hle1].
    apply IH; [done|].
    destruct Hfo as (Hle & dm & Hd & Hfo).
    destruct Hok as (dm0 & Hd0 & Hself).
    assert (dm0 = dm) as -> by congruence.
    destruct (wrap_direct_step _ _ _ _ _ _ Hd Hself Hw)
      as (v' & a & sh & xs & md & mm & t & Hv & Hsto & Ha & Hkey & Hcase & Ht
          & Hut & Hmd & Htd & Htm & Hd' & _).
    split; [by eapply heap_le_trans|].
    assert (∀ l, heap s !! l = None → h0 !! l = None) as Hnone.
    { intros l Hl. destruct (h0 !! l) as [o|] eqn:Ho; [|done].
      specialize (Hle _ _ Ho).
      destruct o; [destruct Hle as (? & ? & _)|..]; congruence. }
    eexists. split; [exact Hd'|].
    intros n l. rewrite !lookup_insert.
    repeat case_decide.
    + intros [= <-]. right. by apply Hnone.
    + intros [= <-]. destruct Hcase as [[? _]|(_ & ? & _)]; subst.
      * by apply Hfo.
      * right. by apply Hnone.
    + apply Hfo.
Qed.

(** *** Following one array-valued key through the run

    [k] is bound to the array at [a] when the run starts.  Until it is
    converted the binding stays; afterwards [k] is bound to a tensor over
    [a] whose metadata mapping is also stored under a metadata key of [k].
    With [strict = false] the mapping is only known to have the three
    entries; with [strict = true] their values are known, provided the
    mapping of [k] is not shared with another key. *)

Definition has_entries (mm : gmap string value) : Prop :=
  is_Some (mm !! "spatial_shape") ∧
  is_Some (mm !! "original_channel_dim") ∧
  is_Some (mm !! "original_affine").

Definition entries_ok (sh : list nat) (mm : gmap string value) : Prop :=
  mm !! "spatial_shape" = Some (VTuple (removelast sh)) ∧
  mm !! "original_channel_dim" = Some (VInt (-1)) ∧
  mm !! "original_affine" = Some VNone.

Lemma entries_ok_meta sh mm : entries_ok sh (meta_entries sh mm).
Proof. unfold entries_ok, meta_entries. by simplify_map_eq. Qed.

Lemma has_entries_meta sh mm : has_entries (meta_entries sh mm).
Proof. unfold has_entries, meta_entries. by simplify_map_eq. Qed.

Definition entries (strict : bool) (sh : list nat) (mm : gmap string value)
    : Prop :=
  if strict then entries_ok sh mm else has_entries mm.

Lemma entries_meta strict sh mm : entries strict sh (meta_entries sh mm).
Proof. destruct strict; [apply entries_ok_meta|apply has_entries_meta]. Qed.

(** What is bound under a metadata key of [k] is bound under metadata keys
    of [k] only. *)
Definition unshared (k : string) (dm : gmap string value) : Prop :=
  ∀ mk l n, tgt k mk → dm !! mk = Some (VRef l) → dm !! n = Some (VRef l) →
    tgt k n.

(** No metadata key of [k] is a metadata key of another target key. *)
Definition own_meta_keys (k : string) : Prop :=
  ∀ k' mk, tgt k mk → tgt k' mk → k' = k.

Definition converted (strict : bool) (k : string) (a : loc) (sh : list nat)
    (s : state) (dm : gmap string value) : Prop :=
  ∃ t md mm mk,
    dm !! k = Some (VRef t) ∧ heap s !! t = Some (OMetaTensor a md) ∧
    heap s !! md = Some (ODict mm) ∧ tgt k mk ∧ dm !! mk = Some (VRef md) ∧
    entries strict sh mm.

Definition tracked (strict : bool) (k : string) (a : loc) (sh : list nat)
    (xs : list Z) (s : state) : Prop :=
  ∃ dm, heap s !! d = Some (ODict dm) ∧ (∀ n, dm !! n ≠ Some (VRef d)) ∧
    heap s !! a = Some (ONdarray sh xs) ∧
    (strict = true → unshared k dm) ∧
    (dm !! k = Some (VRef a) ∨ converted strict k a sh s dm).

Definition done (strict : bool) (k : string) (a : loc) (sh : list nat)
    (xs : list Z) (s : state) : Prop :=
  ∃ dm, heap s !! d = Some (ODict dm) ∧
    heap s !! a = Some (ONdarray sh xs) ∧ converted strict k a sh s dm.

Lemma wrap_tracked strict k a sh xs key mk s u s' :
  (strict = true → own_meta_keys k) →
  tgt key mk →
  wrap_direct (VRef d) key mk s = Ret u s' →
  tracked strict k a sh xs s →
  tracked strict k a sh xs s' ∧
  (key = k ∨ done strict k a sh xs s → done strict k a sh xs s').
Proof.
  intros Hown Htgt Hw (dm & Hd & Hself & Ha & Hun & Hst).
  destruct (wrap_direct_step _ _ _ _ _ _ Hd Hself Hw)
    as (v & a' & sh' & xs' & md & mm & t & Hv & Hsto & Ha' & Hkey & Hcase
        & Ht & Hut & Hmd & Htd & Htm & Hd' & Ht' & Hmd' & Hframe & _).
  set (dm1 := <[key:=VRef t]> (<[mk:=VRef md]> dm)) in *.
  assert (heap s' !! a = Some (ONdarray sh xs)) as Ha1.
  { rewrite Hframe; [done|congruence|congruence|].
    intros ->. destruct Hcase as [[_ ?]|(_ & ? & _)]; congruence. }
  assert (∀ n, dm1 !! n ≠ Some (VRef d)) as Hself1.
  { intros n. unfold dm1. rewrite !lookup_insert.
    repeat case_decide; try congruence; apply Hself. }
  assert (∀ n w, n ≠ key → dm !! n = Some w → dm1 !! n = Some w) as Hkeep.
  { intros n w Hn Hw'. unfold dm1. rewrite lookup_insert_ne by done.
    destruct (decide (mk = n)) as [<-|]; [|by rewrite lookup_insert_ne].
    rewrite lookup_insert_eq.
    destruct Hcase as [[? _]|[? _]]; congruence. }
  assert (dm1 !! mk = Some (VRef md)) as Hmk1.
  { unfold dm1. rewrite lookup_insert_ne by done. apply lookup_insert_eq. }
  assert (strict = true → unshared k dm1) as Hun1.
  { intros Hs mk0 l n Hk0. specialize (Hun Hs). unfold dm1.
    rewrite !lookup_insert. repeat case_decide; subst.
    - by intros _ _.
    - intros [= <-] [= ?]. by subst.
    - intros [= <-] ?. by destruct (Hut n).
    - intros [= <-] [= ?]. by subst.
    - by intros _ _.
    - intros [= <-] Hn. destruct Hcase as [[Hp _]|(_ & _ & _ & Hfr)].
      + by eapply Hun.
      + by destruct (Hfr n).
    - intros ? [= <-]. by destruct (Hut mk0).
    - intros Hm0 [= <-]. destruct Hcase as [[Hp _]|(_ & _ & _ & Hfr)].
      + by eapply Hun.
      + by destruct (Hfr mk0).
    - by apply Hun. }
  assert (key = k → converted strict k a sh s' dm1) as Hconv.
  { intros ->. exists t, md, (meta_entries sh' mm), mk.
    assert (a' = a ∧ sh' = sh) as [-> ->].
    { destruct Hst as [Hk|(t0 & md0 & mm0 & mk0 & Hk & Ht0 & _)].
      - rewrite Hk in Hv. injection Hv as <-.
        erewrite storage_ndarray in Hsto by done. split; congruence.
      - rewrite Hk in Hv. injection Hv as <-.
        erewrite storage_tensor in Hsto by done. split; congruence. }
    repeat split; try done.
    - unfold dm1. apply lookup_insert_eq.
    - apply entries_meta. }
  assert (key ≠ k → converted strict k a sh s dm →
          converted strict k a sh s' dm1) as Hstay.
  { intros Hne (t0 & md0 & mm0 & mk0 & Hk & Ht0 & Hmd0 & Htg0 & Hmk0 & He0).
    assert (t0 ≠ d ∧ t0 ≠ t ∧ t0 ≠ md) as (? & ? & ?).
    { repeat split; try congruence.
      intros ->. destruct Hcase as [[_ ?]|(_ & ? & _)]; congruence. }
    assert (md0 ≠ d) by (intros ->; by destruct (Hself mk0)).
    assert (md0 ≠ t) by congruence.
    assert (mk0 ≠ key) as Hmk0key.
    { intros ->. rewrite Hmk0 in Hv. injection Hv as <-.
      unfold storage in Hsto. by rewrite Hmd0 in Hsto. }
    destruct (decide (md0 = md)) as [->|Hmdne].
    - (* the other key writes into the same mapping *)
      exists t0, md, (meta_entries sh' mm), mk0.
      repeat split; try done.
      + by apply Hkeep.
      + by rewrite Hframe.
      + by apply Hkeep.
      + destruct strict; [|apply has_entries_meta].
        exfalso. destruct Hcase as [[Hp _]|(_ & ? & _)]; [|congruence].
        apply Hne, (Hown eq_refl _ mk); [|done].
        by eapply (Hun eq_refl mk0 md mk).
    - exists t0, md0, mm0, mk0.
      repeat split; try done.
      + by apply Hkeep.
      + by rewrite Hframe.
      + by rewrite Hframe.
      + by apply Hkeep. }
  split.
  - exists dm1. repeat split; try done.
    destruct (decide (key = k)) as [Heq|Hne]; [right; by apply Hconv|].
    destruct Hst as [Hk|Hc]; [left; by apply Hkeep | right; by apply Hstay].
  - intros Hor. exists dm1. repeat split; try done.
    destruct (decide (key = k)) as [Heq|Hne]; [by apply Hconv|].
    destruct Hor as [?|(dm0 & Hd0 & _ & Hc)]; [done|].
    assert (dm0 = dm) as -> by congruence. by apply Hstay.
Qed.

Hypothesis direct_ndarray : ∀ h a sh xs,
  h !! a = Some (ONdarray sh xs) → direct h (VRef a) = true.

Lemma lsteps_tracked strict k a sh xs keys s s' :
  (strict = true → own_meta_keys k) →
  lsteps keys s s' →
  tracked strict k a sh xs s →
  tracked strict k a sh xs s' ∧
  (k ∈ keys ∨ done strict k a sh xs s → done strict k a sh xs s').
Proof using direct_ndarray.
  intros Hown.
  induction 1 as [s|key keys s s1 s' v Hg Hdir Hh _ IH
                  |key mk keys s s1 s' v Htgt Hg Hdir Hw _ IH];
    intros Htr.
  - split; [done|]. intros [Hin|?]; [|done]. by apply elem_of_nil in Hin.
  - assert (tracked strict k a sh xs s1) as Htr1.
    { unfold tracked, converted in *. by rewrite Hh. }
    destruct (IH Htr1) as [Htr' Hdone]. split; [done|].
    intros Hor. apply Hdone.
    assert (key = k → done strict k a sh xs s) as Hk.
    { intros ->. destruct Htr as (dm & Hd & _ & Ha & _ & [Hk|Hc]).
      - destruct (getitem_Ret _ _ _ _ _ Hg) as (? & ? & [= <-] & Hd' & ? & _).
        assert (v = VRef a) as -> by congruence.
        erewrite direct_ndarray in Hdir; done.
      - by exists dm. }
    assert (done strict k a sh xs s → done strict k a sh xs s1) as Hd1.
    { unfold done, converted. by rewrite Hh. }
    destruct Hor as [Hin|?]; [|by right; apply Hd1].
    apply elem_of_cons in Hin as [->|?]; [right; by apply Hd1, Hk|by left].
  - destruct (wrap_tracked _ _ _ _ _ _ _ _ _ _ Hown Htgt Hw Htr)
      as [Htr1 Hd1].
    destruct (IH Htr1) as [Htr' Hdone]. split; [done|].
    intros Hor. apply Hdone.
    destruct Hor as [Hin|?]; [|by right; apply Hd1; right].
    apply elem_of_cons in Hin as [->|?]; [right; by apply Hd1; left|by left].
Qed.

End Loop.

Lemma for_enumerate_cons {A} (body : nat → string → A → M A) i key keys acc s :
  for_enumerate body i (key :: keys) acc s =
    match body i key acc s with
    | Ret acc' s1 => for_enumerate body (S i) keys acc' s1
    | Raise e s1 => Raise e s1
    end.
Proof. reflexivity. Qed.

(** A loop over [pre ++ post] is the loop over [pre] followed, when that
    one raises nothing, by the loop over [post]. *)
Lemma for_enumerate_app {A} (body : nat → string → A → M A) pre post :
  ∀ i acc s,
  for_enumerate body i (pre ++ post) acc s =
    match for_enumerate body i pre acc s with
    | Ret acc' s1 => for_enumerate body (i + length pre)%nat post acc' s1
    | Raise e s1 => Raise e s1
    end.
Proof.
  induction pre as [|key pre IH]; intros i acc s.
  - by rewrite Nat.add_0_r.
  - rewrite <- app_comm_cons, !for_enumerate_cons.
    destruct (body i key acc s) as [acc1 s1|]; [|done].
    rewrite IH. simpl. by rewrite Nat.add_succ_r.
Qed.

(** ** Events: which calls leave the module

    [emits P c]: whatever [c] does, and whether it returns or raises, the
    calls it adds to the trace all satisfy [P]. *)

Definition emits {A} (P : event → Prop) (c : M A) : Prop :=
  ∀ s, ∃ evs, trace (final (c s)) = trace s ++ evs ∧ Forall P evs.

Lemma emits_silent {A} (P : event → Prop) (c : M A) :
  (∀ s, trace (final (c s)) = trace s) → emits P c.
Proof. intros Hc s. exists []. by rewrite app_nil_r. Qed.

Lemma emits_ret {A} P (a : A) : emits P (mret a).
Proof. by apply emits_silent. Qed.

Lemma emits_raise {A} P e : emits P (raise e : M A).
Proof. by apply emits_silent. Qed.

Lemma emits_bind {A B} P (c : M A) (f : A → M B) :
  emits P c → (∀ a, emits P (f a)) → emits P (c ≫= f).
Proof.
  intros Hc Hf s. rewrite bind_eq. destruct (Hc s) as (evs & Htr & Hevs).
  destruct (c s) as [a s1|e s1]; simpl in *; [|eauto].
  destruct (Hf a s1) as (evs' & Htr' & Hevs').
  exists (evs ++ evs'). rewrite Htr', Htr, app_assoc.
  split; [done|]. by apply Forall_app.
Qed.

Lemma emits_get_heap P : emits P get_heap.
Proof. by apply emits_silent. Qed.

Lemma emits_put_heap P h : emits P (put_heap h).
Proof. by apply emits_silent. Qed.

Lemma emits_alloc P o : emits P (alloc o).
Proof. by apply emits_silent. Qed.

Lemma emits_emit (P : event → Prop) e : P e → emits P (emit e).
Proof. intros He s. exists [e]. split; [done|]. by constructor. Qed.

Lemma emits_invoke P f arg : emits P (invoke f arg).
Proof.
  apply emits_silent. intros s. unfold invoke. by destruct (f (heap s) arg).
Qed.

Create HintDb emits.

#[local] Hint Resolve emits_ret emits_raise emits_get_heap emits_put_heap
  emits_alloc emits_invoke : emits.

Ltac emits_step :=
  first [ progress eauto with emits
        | apply emits_bind; [|intros ?]
        | case_match ].

Lemma emits_getitem P x key : emits P (getitem x key).
Proof. unfold getitem. repeat emits_step. Qed.

Lemma emits_setitem P x key v : emits P (setitem x key v).
Proof. unfold setitem. repeat emits_step. Qed.

#[local] Hint Resolve emits_getitem emits_setitem : emits.

Lemma emits_setdefault_empty P x key : emits P (setdefault_empty x key).
Proof. unfold setdefault_empty. repeat emits_step. Qed.

Lemma emits_getattr_shape P v : emits P (getattr_shape v).
Proof. unfold getattr_shape. repeat emits_step. Qed.

Lemma emits_MetaTensor P x meta : emits P (MetaTensor x meta).
Proof. unfold MetaTensor. repeat emits_step. Qed.

Lemma emits_dict_copy P data : emits P (dict_copy data).
Proof. unfold dict_copy. repeat emits_step. Qed.

#[local] Hint Resolve emits_setdefault_empty emits_getattr_shape
  emits_MetaTensor emits_dict_copy : emits.

Lemma emits_wrap_direct P x key mk : emits P (wrap_direct x key mk).
Proof. unfold wrap_direct. repeat emits_step. Qed.

#[local] Hint Resolve emits_wrap_direct : emits.

Lemma emits_for_enumerate {A} P (body : nat → string → A → M A) keys :
  (∀ i key acc, emits P (body i key acc)) →
  ∀ i acc, emits P (for_enumerate body i keys acc).
Proof.
  intros Hbody. induction keys as [|key keys IH]; intros i acc; simpl.
  - apply emits_ret.
  - apply emits_bind; [apply Hbody|]. intros acc'. apply IH.
Qed.

Definition is_image_open (e : event) : Prop :=
  match e with EvImageOpen _ => True | _ => False end.

Definition no_event (e : event) : Prop := False.

(** A call that adds no event leaves the trace as it was. *)
Lemma emits_no_event {A} (c : M A) s :
  emits no_event c → trace (final (c s)) = trace s.
Proof.
  intros Hc. destruct (Hc s) as (evs & -> & Hevs).
  destruct evs as [|e evs]; [by rewrite app_nil_r|].
  by apply Forall_cons in Hevs as [[] _].
Qed.

(** ** Invariants that hold whether a computation returns or raises *)

Definition hoare {A} (P : state → Prop) (c : M A)
    (Q : A → state → Prop) (E : state → Prop) : Prop :=
  ∀ s, P s → match c s with Ret a s' => Q a s' | Raise _ s' => E s' end.

Lemma hoare_ret {A} (P : state → Prop) (a : A) (Q : A → state → Prop) E :
  (∀ s, P s → Q a s) → hoare P (mret a) Q E.
Proof. intros H s Hs. by apply H. Qed.

Lemma hoare_raise {A} (P : state → Prop) e (Q : A → state → Prop)
    (E : state → Prop) :
  (∀ s, P s → E s) → hoare P (raise e) Q E.
Proof. intros H s Hs. by apply H. Qed.

Lemma hoare_bind {A B} P (c : M A) (f : A → M B) Q R E :
  hoare P c Q E → (∀ a, hoare (Q a) (f a) R E) → hoare P (c ≫= f) R E.
Proof.
  intros Hc Hf s Hs. rewrite bind_eq. specialize (Hc s Hs).
  destruct (c s) as [a s1|e s1]; [by apply Hf|done].
Qed.

Lemma hoare_weaken {A} (P P' : state → Prop) (c : M A)
    (Q Q' : A → state → Prop) E :
  hoare P' c Q' E → (∀ s, P s → P' s) → (∀ a s, Q' a s → Q a s) →
  hoare P c Q E.
Proof.
  intros Hc HP HQ s Hs. specialize (Hc s (HP s Hs)).
  destruct (c s); [by apply HQ|done].
Qed.

Lemma hoare_pure {A} (P : state → Prop) (φ : Prop) (c : M A) Q E :
  (φ → hoare P c Q E) → hoare (λ s, P s ∧ φ) c Q E.
Proof. intros H s [Hs Hφ]. by apply H. Qed.

Lemma hoare_for_enumerate {A} (I : state → Prop)
    (body : nat → string → A → M A) keys :
  (∀ i key acc, hoare I (body i key acc) (λ _, I) I) →
  ∀ i acc, hoare I (for_enumerate body i keys acc) (λ _, I) I.
Proof.
  intros Hbody. induction keys as [|key keys IH]; intros i acc; simpl.
  - by apply hoare_ret.
  - eapply hoare_bind; [apply Hbody|]. intros acc'. apply IH.
Qed.

(** *** The caller's dictionary is no target of a write

    [l0] holds the caller's dictionary [m], [d] the working copy, and the
    working copy does not refer to [l0].  Under this invariant nothing the
    conversion block writes to is [l0]. *)

Section Frame.

Variables (l0 d : loc) (m : gmap string value).
Hypothesis d_not_l0 : d ≠ l0.

Definition kept (s : state) : Prop := heap s !! l0 = Some (ODict m).

Definition apart (s : state) : Prop :=
  kept s ∧ ∃ dm, heap s !! d = Some (ODict dm) ∧
    ∀ n, dm !! n ≠ Some (VRef l0).

Lemma hoare_getitem_apart key :
  hoare apart (getitem (VRef d) key) (λ v s, apart s ∧ v ≠ VRef l0) apart.
Proof.
  intros s Hs. pose proof Hs as (_ & dm & Hd & Hno).
  rewrite (getitem_eq _ _ _ _ Hd).
  destruct (dm !! key) as [v|] eqn:Hv; [|done].
  split; [done|]. intros ->. by destruct (Hno key).
Qed.

Lemma hoare_setdefault_empty_apart key :
  hoare apart (setdefault_empty (VRef d) key)
    (λ v s, apart s ∧ v ≠ VRef l0) apart.
Proof using d_not_l0.
  intros s Hs. pose proof Hs as (Hk & dm & Hd & Hno).
  rewrite (setdefault_empty_eq _ _ _ _ Hd).
  destruct (dm !! key) as [v|] eqn:Hv.
  - split; [done|]. intros ->. by destruct (Hno key).
  - simpl. assert (new_loc (heap s) ≠ l0) as Hne
      by (symmetry; by eapply new_loc_ne).
    split; [|congruence]. split.
    + unfold kept. simpl. by rewrite !lookup_insert_ne by done.
    + eexists. split; [apply lookup_insert_eq|].
      intros n. rewrite lookup_insert. case_decide; [congruence|apply Hno].
Qed.

Lemma hoare_getattr_shape_apart (P : state → Prop) v :
  hoare P (getattr_shape v) (λ _, P) P.
Proof. intros s Hs. rewrite getattr_shape_eq. by destruct shape_of. Qed.

Lemma hoare_setitem_apart x key v :
  x ≠ VRef l0 → v ≠ VRef l0 →
  hoare apart (setitem x key v) (λ _, apart) apart.
Proof.
  intros Hx Hv s Hs. pose proof Hs as (Hk & dm & Hd & Hno).
  unfold setitem. rewrite bind_eq. simpl.
  destruct x as [| | | |l1]; try done.
  destruct (heap s !! l1) as [[mm| |]|] eqn:Hl1; try done. simpl.
  assert (l1 ≠ l0) by congruence.
  split; [unfold kept; simpl; by rewrite lookup_insert_ne|].
  destruct (decide (l1 = d)) as [->|Hne].
  - eexists. split; [apply lookup_insert_eq|].
    assert (mm = dm) as -> by congruence.
    intros n. rewrite lookup_insert. case_decide; [congruence|apply Hno].
  - exists dm. split; [simpl; by rewrite lookup_insert_ne|done].
Qed.

Lemma hoare_MetaTensor_apart x meta :
  hoare apart (MetaTensor x meta) (λ v s, apart s ∧ v ≠ VRef l0) apart.
Proof.
  intros s Hs. pose proof Hs as (Hk & dm & Hd & Hno).
  unfold MetaTensor. rewrite bind_eq. simpl.
  destruct (storage (heap s) x) as [a|]; [|done].
  destruct meta as [| | | |md]; try done. simpl.
  assert (new_loc (heap s) ≠ l0) by (symmetry; by eapply new_loc_ne).
  assert (new_loc (heap s) ≠ d) by (symmetry; by eapply new_loc_ne).
  split; [|congruence]. split.
  - unfold kept. simpl. by rewrite lookup_insert_ne.
  - exists dm. split; [simpl; by rewrite lookup_insert_ne|done].
Qed.

Lemma hoare_wrap_direct_apart key mk :
  hoare apart (wrap_direct (VRef d) key mk) (λ _, apart) apart.
Proof using d_not_l0.
  unfold wrap_direct.
  eapply hoare_bind; [apply hoare_setdefault_empty_apart|].
  intros meta_dict. apply hoare_pure. intros Hmeta.
  eapply hoare_bind; [apply hoare_getitem_apart|].
  intros v. apply hoare_pure. intros _.
  eapply hoare_bind; [apply hoare_getattr_shape_apart|]. intros sh.
  eapply hoare_bind; [by apply hoare_setitem_apart|]. intros ?.
  eapply hoare_bind; [by apply hoare_setitem_apart|]. intros ?.
  eapply hoare_bind; [by apply hoare_setitem_apart|]. intros ?.
  eapply hoare_bind; [apply hoare_getitem_apart|].
  intros image_np. apply hoare_pure. intros _.
  eapply hoare_bind; [apply hoare_MetaTensor_apart|].
  intros t. apply hoare_pure. intros Ht.
  apply hoare_setitem_apart; [congruence|done].
Qed.

End Frame.

(** ** Metadata keys: [f"{key}_{postfix}"] determines [key] *)

Lemma string_length_app (a b : string) :
  String.length (a +:+ b) = (String.length a + String.length b)%nat.
Proof.
  induction a as [|c a IH]; [done|].
  change (String c a +:+ b) with (String c (a +:+ b)). cbn. by rewrite IH.
Qed.

Lemma string_app_inj_r (s a b : string) : a +:+ s = b +:+ s → a = b.
Proof.
  revert b. induction a as [|c a IH]; intros [|c' b] H.
  - done.
  - apply (f_equal String.length) in H.
    rewrite !string_length_app in H. cbn in H. lia.
  - apply (f_equal String.length) in H.
    rewrite !string_length_app in H. cbn in H. lia.
  - change (String c (a +:+ s) = String c' (b +:+ s)) in H.
    injection H as -> H. f_equal. by apply IH.
Qed.

(** ** The shallow copy *)

(** The state in which the per-key loop starts: the store extended with the
    shallow copy. *)
Definition copied (s : state) (m : gmap string value) : state :=
  mkState (<[new_loc (heap s) := ODict m]> (heap s)) (trace s).

Lemma copied_copy_ok s l m :
  heap s !! l = Some (ODict m) → copy_ok (new_loc (heap s)) (copied s m).
Proof.
  intros Hl. exists m. split; [apply lookup_insert_eq|].
  intros n. by eapply new_loc_unreferenced.
Qed.

Lemma copied_lookup s m l o :
  heap s !! l = Some o → heap (copied s m) !! l = Some o.
Proof.
  intros Hl. simpl. rewrite lookup_insert_ne; [done|].
  symmetry. by eapply new_loc_ne.
Qed.

Lemma is_ndarray_copied s m v :
  is_ndarray (heap (copied s m)) v = is_ndarray (heap s) v.
Proof.
  destruct v as [| | | |x]; try done. simpl.
  destruct (decide (x = new_loc (heap s))) as [->|Hx].
  - by rewrite lookup_insert_eq, new_loc_None.
  - by rewrite lookup_insert_ne.
Qed.

Lemma storage_copied s m v : storage (heap (copied s m)) v = storage (heap s) v.
Proof.
  pose proof (new_loc_None (heap s)) as Hnew. simpl.
  set (d := new_loc (heap s)) in *. unfold storage.
  destruct v as [| | | |x]; try done.
  destruct (decide (x = d)) as [->|Hx].
  - by rewrite lookup_insert_eq, Hnew.
  - rewrite lookup_insert_ne by done.
    destruct (heap s !! x) as [[|sh xs|y md]|]; try done.
    destruct (decide (y = d)) as [->|Hy].
    + by rewrite lookup_insert_eq, Hnew.
    + by rewrite lookup_insert_ne.
Qed.

(** [key] is bound to an array, or to a tensor over one. *)
Definition has_array (h : gmap loc obj) (dm : gmap string value)
    (key : string) : Prop :=
  ∃ v a sh xs, dm !! key = Some v ∧ storage h v = Some a ∧
    h !! a = Some (ONdarray sh xs).

Lemma has_array_copied s m dm key :
  has_array (heap (copied s m)) dm key ↔ has_array (heap s) dm key.
Proof.
  unfold has_array. split; intros (v & a & sh & xs & Hv & Hst & Ha).
  - rewrite storage_copied in Hst. exists v, a, sh, xs.
    split; [done|]. split; [done|].
    destruct (storage_Some _ _ _ Hst) as (? & sh' & xs' & _ & Ha' & _).
    rewrite (copied_lookup _ m _ _ Ha') in Ha. congruence.
  - exists v, a, sh, xs. rewrite storage_copied.
    split; [done|]. split; [done|]. by apply copied_lookup.
Qed.

(** ** When the conversion block raises nothing *)

(** The block can run on [key] with metadata key [mk]: [key] holds an array
    and [mk] is unbound or bound to a mapping. *)
Definition convertible (h : gmap loc obj) (dm : gmap string value)
    (key mk : string) : Prop :=
  has_array h dm key ∧
  (dm !! mk = None ∨
   ∃ md mm, dm !! mk = Some (VRef md) ∧ h !! md = Some (ODict mm)).

Lemma convertible_copied s m dm key mk :
  convertible (heap s) dm key mk → convertible (heap (copied s m)) dm key mk.
Proof.
  intros [Hk Hmk]. split; [by apply has_array_copied|].
  destruct Hmk as [?|(md & mm & Hmk & Hmd)]; [by left|right].
  exists md, mm. split; [done|]. by apply copied_lookup.
Qed.

Lemma wrap_direct_returns d dm key mk s :
  heap s !! d = Some (ODict dm) →
  (∀ n, dm !! n ≠ Some (VRef d)) →
  convertible (heap s) dm key mk →
  ∃ s', wrap_direct (VRef d) key mk s = Ret tt s'.
Proof.
  intros Hd Hself [(v & a & sh & xs & Hv & Hst & Ha) Hmk].
  assert (a ≠ d) as Had by congruence.
  unfold wrap_direct. rewrite bind_eq, (setdefault_empty_eq _ _ _ _ Hd).
  destruct Hmk as [Hnone|(md & mm & Hmk & Hmd)].
  - (* the metadata key is not bound *)
    rewrite Hnone. simpl. set (e := new_loc (heap s)).
    assert (heap s !! e = None) as He by apply new_loc_None.
    assert (e ≠ d) as Hne by congruence.
    assert (a ≠ e) as Hae by congruence.
    assert (key ≠ mk) as Hkey by congruence.
    set (h1 := <[d:=ODict (<[mk:=VRef e]> dm)]> (<[e:=ODict ∅]> (heap s))).
    assert (h1 !! d = Some (ODict (<[mk:=VRef e]> dm))) as Hd1
      by apply lookup_insert_eq.
    assert (h1 !! e = Some (ODict ∅)) as He1.
    { unfold h1. rewrite lookup_insert_ne by done. apply lookup_insert_eq. }
    assert (storage h1 v = Some a) as Hst1.
    { unfold h1. erewrite storage_insert_dict
        by (rewrite lookup_insert_ne by done; exact Hd).
      by apply storage_insert_fresh. }
    assert (h1 !! a = Some (ONdarray sh xs)) as Ha1.
    { unfold h1. by rewrite !lookup_insert_ne. }
    assert (shape_of h1 v = Some sh) as Hsh1.
    { unfold shape_of. rewrite Hst1. simpl. by rewrite Ha1. }
    rewrite bind_eq. erewrite getitem_eq by exact Hd1.
    rewrite lookup_insert_ne, Hv by done.
    rewrite bind_eq, getattr_shape_eq. simpl. fold h1. rewrite Hsh1.
    rewrite bind_eq. erewrite setitem_eq by exact He1.
    rewrite bind_eq. erewrite setitem_eq by (simpl; apply lookup_insert_eq).
    rewrite bind_eq. erewrite setitem_eq by (simpl; apply lookup_insert_eq).
    simpl. rewrite !insert_insert_eq.
    rewrite bind_eq. erewrite getitem_eq
      by (simpl; rewrite lookup_insert_ne by done; exact Hd1).
    rewrite lookup_insert_ne, Hv, bind_eq by done.
    erewrite MetaTensor_eq
      by (simpl; erewrite storage_insert_dict by exact He1; exact Hst1).
    simpl. set (h3 := <[e:=_]> h1). set (t := new_loc h3).
    assert (h3 !! d = Some (ODict (<[mk:=VRef e]> dm))) as Hd3
      by (unfold h3; by rewrite lookup_insert_ne).
    assert (t ≠ d) as Htd.
    { pose proof (new_loc_None h3) as Hf. fold t in Hf. congruence. }
    erewrite setitem_eq
      by (simpl; rewrite !lookup_insert_ne by done; exact Hd3).
    eauto.
  - (* the metadata key is bound to a mapping *)
    assert (md ≠ d) as Hne by (intros ->; by destruct (Hself mk)).
    assert (shape_of (heap s) v = Some sh) as Hsh.
    { unfold shape_of. rewrite Hst. simpl. by rewrite Ha. }
    rewrite Hmk, bind_eq, (getitem_eq _ _ _ _ Hd), Hv.
    rewrite bind_eq, getattr_shape_eq, Hsh.
    rewrite bind_eq. erewrite setitem_eq by exact Hmd.
    rewrite bind_eq. erewrite setitem_eq by (simpl; apply lookup_insert_eq).
    rewrite bind_eq. erewrite setitem_eq by (simpl; apply lookup_insert_eq).
    simpl. rewrite !insert_insert_eq.
    rewrite bind_eq. erewrite getitem_eq
      by (simpl; rewrite lookup_insert_ne by done; exact Hd).
    rewrite Hv, bind_eq.
    erewrite MetaTensor_eq
      by (simpl; erewrite storage_insert_dict by exact Hmd; exact Hst).
    simpl. set (h3 := <[md:=_]> (heap s)). set (t := new_loc h3).
    assert (h3 !! d = Some (ODict dm)) as Hd3
      by (unfold h3; by rewrite lookup_insert_ne).
    assert (t ≠ d) as Htd.
    { pose proof (new_loc_None h3) as Hf. fold t in Hf. congruence. }
    erewrite setitem_eq
      by (simpl; rewrite !lookup_insert_ne by done; exact Hd3).
    eauto.
Qed.

Lemma storage_le h h' v a :
  heap_le h h' → storage h v = Some a → storage h' v = Some a.
Proof.
  intros Hle Hst.
  destruct (storage_Some _ _ _ Hst) as (l & sh & xs & -> & Ha & Hl).
  pose proof (Hle _ _ Ha) as Ha'. simpl in Ha'.
  destruct Hl as [->|[md Hl]]; [by eapply storage_ndarray|].
  pose proof (Hle _ _ Hl) as Hl'. simpl in Hl'. by eapply storage_tensor.
Qed.

(** A conversion leaves the other keys convertible. *)
Lemma wrap_direct_convertible d dm key mk s u s' key' mk' :
  heap s !! d = Some (ODict dm) →
  (∀ n, dm !! n ≠ Some (VRef d)) →
  wrap_direct (VRef d) key mk s = Ret u s' →
  convertible (heap s) dm key' mk' →
  ∃ dm', heap s' !! d = Some (ODict dm') ∧ convertible (heap s') dm' key' mk'.
Proof.
  intros Hd Hself Hw [(v' & a' & sh' & xs' & Hv' & Hst' & Ha') Hmk'].
  destruct (wrap_direct_le d _ _ _ _ _ (ex_intro _ dm (conj Hd Hself)) Hw)
    as [_ Hle].
  destruct (wrap_direct_step _ _ _ _ _ _ _ Hd Hself Hw)
    as (v & a & sh & xs & md & mm & t & Hv & Hsto & Ha & Hkey & Hcase & Ht
        & Hut & Hmd & Htd & Htm & Hd' & Ht' & Hmd' & Hframe & _).
  eexists. split; [exact Hd'|]. split.
  - destruct (decide (key' = key)) as [->|Hne].
    + exists (VRef t), a, sh, xs. rewrite lookup_insert_eq. split; [done|].
      pose proof (Hle _ _ Ha) as Ha1. simpl in Ha1.
      split; [|done]. by eapply storage_tensor.
    + exists v', a', sh', xs'.
      assert (mk ≠ key') as Hmkne.
      { intros ->. destruct Hcase as [[Hp Hq]|[Hp _]]; [|congruence].
        rewrite Hp in Hv'. injection Hv' as <-.
        unfold storage in Hst'. by rewrite Hq in Hst'. }
      rewrite !lookup_insert_ne by done. split; [done|].
      split; [by eapply storage_le|]. apply (Hle _ _ Ha').
  - assert (key ≠ mk') as Hne.
    { intros ->. destruct Hmk' as [?|(md' & mm' & Hp & Hq)]; [congruence|].
      rewrite Hp in Hv. injection Hv as <-.
      unfold storage in Hsto. by rewrite Hq in Hsto. }
    rewrite lookup_insert_ne by done.
    destruct (decide (mk = mk')) as [<-|Hmne].
    + right. exists md, (meta_entries sh mm). by rewrite lookup_insert_eq.
    + rewrite lookup_insert_ne by done.
      destruct Hmk' as [?|(md' & mm' & Hp & Hq)]; [by left|right].
      destruct (Hle _ _ Hq) as (mm1 & Hq1 & _). by exists md', mm1.
Qed.

(** * NormalizeLabeld *)

Section Normalize.

Variable val : Z.

Lemma fill_positive_idem (xs : list Z) :
  fill_positive val (fill_positive val xs) = fill_positive val xs.
Proof.
  unfold fill_positive. rewrite <- list_fmap_compose.
  apply list_fmap_ext. intros _ x _. simpl.
  destruct (0 <? x)%Z eqn:Hx; [|by rewrite Hx].
  by destruct (0 <? val)%Z.
Qed.

Lemma fill_positive_lookup (xs : list Z) i x :
  xs !! i = Some x →
  fill_positive val xs !! i = Some (if (0 <? x)%Z then val else x).
Proof. intros Hi. unfold fill_positive. by rewrite list_lookup_fmap, Hi. Qed.

Lemma setitem_positive_eq label a sh xs s :
  storage (heap s) label = Some a →
  heap s !! a = Some (ONdarray sh xs) →
  setitem_positive label val s =
    Ret tt (mkState (<[a := ONdarray sh (fill_positive val xs)]> (heap s))
              (trace s)).
Proof.
  intros Hst Ha. unfold setitem_positive. rewrite bind_eq. simpl.
  by rewrite Hst, Ha.
Qed.

Lemma setitem_positive_Ret label s u s' :
  setitem_positive label val s = Ret u s' →
  ∃ a sh xs, storage (heap s) label = Some a ∧
    heap s !! a = Some (ONdarray sh xs) ∧
    s' = mkState (<[a := ONdarray sh (fill_positive val xs)]> (heap s))
           (trace s).
Proof.
  unfold setitem_positive. rewrite bind_eq. simpl.
  destruct (storage (heap s) label) as [a|] eqn:Hst; [|done].
  destruct (heap s !! a) as [[|sh xs|]|] eqn:Ha; try done.
  intros [= _ <-]. eauto 10.
Qed.

(** What one iteration does when it raises nothing: the array behind
    [d[key]] is rewritten in place and the working copy keeps its
    bindings. *)
Lemma normalize_body_Ret self d dm key s u s' :
  nl_value self = val →
  heap s !! d = Some (ODict dm) →
  NormalizeLabeld_body self (VRef d) key s = Ret u s' →
  ∃ label a sh xs, dm !! key = Some label ∧
    storage (heap s) label = Some a ∧
    heap s !! a = Some (ONdarray sh xs) ∧
    s' = mkState (<[a := ONdarray sh (fill_positive val xs)]> (heap s))
           (trace s).
Proof.
  intros Hv Hd. unfold NormalizeLabeld_body.
  rewrite bind_eq, (getitem_eq _ _ _ _ Hd).
  destruct (dm !! key) as [label|] eqn:Hk; [|done].
  rewrite bind_eq, Hv.
  destruct (setitem_positive label val s) as [[] s1|] eqn:Hp; [|done].
  destruct (setitem_positive_Ret _ _ _ _ Hp) as (a & sh & xs & Hst & Ha & ->).
  assert (a ≠ d) as Hne by congruence.
  erewrite setitem_eq by (simpl; rewrite lookup_insert_ne by done; exact Hd).
  simpl. rewrite (insert_id dm key) by done.
  rewrite insert_id by (by rewrite lookup_insert_ne).
  intros [= _ <-]. eauto 10.
Qed.

(** Relative to the store [h1] the loop started from, a location either
    holds what it held, or an array of [h1] with its positive elements
    replaced. *)
Definition normed (h1 h : gmap loc obj) (l : loc) : Prop :=
  ∃ sh xs, h1 !! l = Some (ONdarray sh xs) ∧
    h !! l = Some (ONdarray sh (fill_positive val xs)).

Definition norm_rel (h1 h : gmap loc obj) : Prop :=
  ∀ l, h !! l = h1 !! l ∨ normed h1 h l.

Lemma norm_rel_refl h : norm_rel h h.
Proof. intros l. by left. Qed.

Lemma norm_rel_storage h1 h w : norm_rel h1 h → storage h w = storage h1 w.
Proof.
  intros Hrel. destruct w as [| | | |l]; try done. unfold storage.
  assert (∀ x, match h !! x with Some (ONdarray _ _) => true | _ => false end
             = match h1 !! x with Some (ONdarray _ _) => true | _ => false end)
    as Harr.
  { intros x. destruct (Hrel x) as [->|(sh & xs & -> & ->)]; done. }
  destruct (Hrel l) as [->|(sh & xs & -> & ->)]; [|done].
  destruct (h1 !! l) as [[| |x md]|]; try done.
  specialize (Harr x). destruct (h !! x) as [[]|], (h1 !! x) as [[]|]; done.
Qed.

Lemma norm_rel_dict h1 h l mm :
  norm_rel h1 h → h1 !! l = Some (ODict mm) → h !! l = Some (ODict mm).
Proof.
  intros Hrel Hl. destruct (Hrel l) as [->|(sh & xs & ? & _)]; congruence.
Qed.

Lemma normalize_body_rel self d dm key h1 s u s' :
  nl_value self = val →
  h1 !! d = Some (ODict dm) →
  norm_rel h1 (heap s) →
  NormalizeLabeld_body self (VRef d) key s = Ret u s' →
  norm_rel h1 (heap s') ∧ trace s' = trace s ∧
  (∀ l, normed h1 (heap s) l → normed h1 (heap s') l) ∧
  ∃ label a, dm !! key = Some label ∧ storage h1 label = Some a ∧
    normed h1 (heap s') a.
Proof.
  intros Hv Hd Hrel Hbody.
  pose proof (norm_rel_dict _ _ _ _ Hrel Hd) as Hd'.
  destruct (normalize_body_Ret _ _ _ _ _ _ _ Hv Hd' Hbody)
    as (label & a & sh & xs & Hk & Hst & Ha & ->). simpl.
  assert (normed h1 (<[a:=ONdarray sh (fill_positive val xs)]> (heap s)) a)
    as Hna.
  { destruct (Hrel a) as [Heq|(sh0 & xs0 & H1 & H2)].
    - exists sh, xs. rewrite <- Heq, Ha. by rewrite lookup_insert_eq.
    - exists sh0, xs0. split; [done|]. rewrite lookup_insert_eq.
      rewrite Ha in H2. injection H2 as -> ->.
      by rewrite fill_positive_idem. }
  assert (∀ l, normed h1 (heap s) l →
    normed h1 (<[a:=ONdarray sh (fill_positive val xs)]> (heap s)) l)
    as Hmono.
  { intros l Hl. destruct (decide (l = a)) as [->|Hne]; [done|].
    destruct Hl as (sh0 & xs0 & H1 & H2). exists sh0, xs0.
    by rewrite lookup_insert_ne. }
  repeat split; try done.
  - intros l. destruct (decide (l = a)) as [->|Hne]; [by right|].
    destruct (Hrel l) as [Heq|Hl]; [left; by rewrite lookup_insert_ne|].
    right. by apply Hmono.
  - exists label, a. by rewrite <- (norm_rel_storage _ _ _ Hrel).
Qed.

(** The whole loop, when it raises nothing. *)
Lemma normalize_loop_Ret self d dm h1 keys : ∀ i s u s',
  nl_value self = val →
  h1 !! d = Some (ODict dm) →
  norm_rel h1 (heap s) →
  for_enumerate (λ _ key _, NormalizeLabeld_body self (VRef d) key)
    i keys tt s = Ret u s' →
  norm_rel h1 (heap s') ∧ trace s' = trace s ∧
  (∀ l, normed h1 (heap s) l → normed h1 (heap s') l) ∧
  Forall (λ key, ∃ label a, dm !! key = Some label ∧
    storage h1 label = Some a ∧ normed h1 (heap s') a) keys.
Proof.
  induction keys as [|key keys IH]; intros i s u s' Hv Hd Hrel.
  - intros [= _ <-]. by repeat split.
  - rewrite for_enumerate_cons.
    destruct (NormalizeLabeld_body _ _ _ s) as [[] s1|] eqn:Hb; [|done].
    intros Hrest.
    destruct (normalize_body_rel _ _ _ _ _ _ _ _ Hv Hd Hrel Hb)
      as (Hrel1 & Htr1 & Hmono1 & label & a & Hk & Hst & Hn).
    destruct (IH _ _ _ _ Hv Hd Hrel1 Hrest) as (Hrel' & Htr' & Hmono' & Hall).
    repeat split; [done|congruence|by auto|].
    constructor; [|done]. exists label, a. auto.
Qed.

(** The loop raises nothing when every key holds an array. *)
Lemma normalize_loop_returns self d dm h1 keys : ∀ i s,
  nl_value self = val →
  h1 !! d = Some (ODict dm) →
  norm_rel h1 (heap s) →
  Forall (has_array h1 dm) keys →
  ∃ s', for_enumerate (λ _ key _, NormalizeLabeld_body self (VRef d) key)
          i keys tt s = Ret tt s'.
Proof.
  induction keys as [|key keys IH]; intros i s Hv Hd Hrel Hall.
  - by exists s.
  - apply Forall_cons in Hall as [(label & a & sh & xs & Hk & Hst & Ha) Hall].
    rewrite for_enumerate_cons.
    pose proof (norm_rel_dict _ _ _ _ Hrel Hd) as Hd'.
    assert (∃ ys, heap s !! a = Some (ONdarray sh ys)) as [ys Hys].
    { destruct (Hrel a) as [Heq|(sh0 & xs0 & H1 & H2)].
      - exists xs. by rewrite Heq.
      - rewrite Ha in H1. injection H1 as <- <-. eauto. }
    assert (a ≠ d) as Hne by congruence.
    assert (NormalizeLabeld_body self (VRef d) key s =
              Ret tt (mkState (<[a := ONdarray sh (fill_positive val ys)]>
                                 (heap s)) (trace s))) as Hb.
    { unfold NormalizeLabeld_body.
      rewrite bind_eq, (getitem_eq _ _ _ _ Hd'), Hk, bind_eq, Hv.
      rewrite (setitem_positive_eq label a sh ys)
        by (by rewrite ?(norm_rel_storage _ _ _ Hrel)).
      erewrite setitem_eq
        by (simpl; rewrite lookup_insert_ne by done; exact Hd').
      simpl. rewrite (insert_id dm key) by done.
      by rewrite insert_id by (by rewrite lookup_insert_ne). }
    rewrite Hb.
    destruct (normalize_body_rel _ _ _ _ _ _ _ _ Hv Hd Hrel Hb) as (Hrel1 & _).
    by apply IH.
Qed.

(** A run on arrays that the replacement leaves as they are changes
    nothing and raises nothing. *)
Lemma normalize_loop_fixed self d dm keys : ∀ i s,
  nl_value self = val →
  heap s !! d = Some (ODict dm) →
  Forall (λ key, ∃ label a sh xs, dm !! key = Some label ∧
    storage (heap s) label = Some a ∧ heap s !! a = Some (ONdarray sh xs) ∧
    fill_positive val xs = xs) keys →
  for_enumerate (λ _ key _, NormalizeLabeld_body self (VRef d) key)
    i keys tt s = Ret tt s.
Proof.
  induction keys as [|key keys IH]; intros i s Hv Hd Hall; [done|].
  apply Forall_cons in Hall as [(label & a & sh & xs & Hk & Hst & Ha & Hfix)
                                  Hall].
  rewrite for_enumerate_cons. unfold NormalizeLabeld_body at 1.
  rewrite bind_eq, (getitem_eq _ _ _ _ Hd), Hk, bind_eq, Hv.
  rewrite (setitem_positive_eq _ _ _ _ _ Hst Ha), Hfix.
  rewrite (insert_id (heap s)) by done.
  erewrite setitem_eq by exact Hd. simpl.
  rewrite (insert_id dm key), (insert_id (heap s)) by done.
  destruct s. by apply IH.
Qed.

End Normalize.

Lemma dict_copy_Ret data s v s' :
  dict_copy data s = Ret v s' →
  ∃ l m, data = VRef l ∧ heap s !! l = Some (ODict m) ∧
    v = VRef (new_loc (heap s)) ∧ s' = copied s m.
Proof.
  unfold dict_copy. rewrite bind_eq. simpl.
  destruct data as [| | | |l]; try done.
  destruct (heap s !! l) as [[m| |]|] eqn:Hl; try done.
  intros [= <- <-]. eauto 10.
Qed.

(** A call of [NormalizeLabeld] that returns: the loop ran on the copy. *)
Lemma normalize_call_Ret self data s v s' :
  NormalizeLabeld_call self data s = Ret v s' →
  ∃ l m, data = VRef l ∧ heap s !! l = Some (ODict m) ∧
    v = VRef (new_loc (heap s)) ∧
    for_enumerate
      (λ _ key _, NormalizeLabeld_body self (VRef (new_loc (heap s))) key)
      0 (nl_keys self) tt (copied s m) = Ret tt s'.
Proof.
  unfold NormalizeLabeld_call. rewrite bind_eq.
  destruct (dict_copy data s) as [d s1|] eqn:Hc; [|done].
  destruct (dict_copy_Ret _ _ _ _ Hc) as (l & m & -> & Hl & -> & ->).
  rewrite bind_eq.
  destruct (for_enumerate _ _ _ _ _) as [[] s2|] eqn:Hloop; [|done].
  intros [= <- <-]. eauto 10.
Qed.

(** The call returns exactly when every target key holds an array. *)
Lemma normalize_call_returns self s l m :
  heap s !! l = Some (ODict m) →
  Forall (has_array (heap s) m) (nl_keys self) ↔
  ∃ v s', NormalizeLabeld_call self (VRef l) s = Ret v s'.
Proof.
  intros Hl. set (d := new_loc (heap s)).
  assert (heap (copied s m) !! d = Some (ODict m)) as Hd
    by apply lookup_insert_eq.
  split.
  - intros Hall.
    destruct (normalize_loop_returns (nl_value self) self d m
                (heap (copied s m)) (nl_keys self) 0%nat (copied s m)
                eq_refl Hd (norm_rel_refl _ _)) as [s' Hloop].
    { eapply Forall_impl; [exact Hall|]. intros key.
      apply has_array_copied. }
    exists (VRef d), s'. unfold NormalizeLabeld_call.
    rewrite bind_eq, (dict_copy_eq _ _ _ Hl), bind_eq.
    change (mkState _ (trace s)) with (copied s m). fold d.
    by rewrite Hloop.
  - intros (v & s' & Hcall).
    destruct (normalize_call_Ret _ _ _ _ _ Hcall)
      as (l' & m' & [= <-] & Hl' & -> & Hloop).
    assert (m' = m) as -> by congruence. fold d in Hloop.
    destruct (normalize_loop_Ret (nl_value self) self d m _ _ _ _ _ _
                eq_refl Hd (norm_rel_refl _ _) Hloop) as (_ & _ & _ & Hall).
    eapply Forall_impl; [exact Hall|].
    intros key (label & a & Hlab & Hst & sh & xs & Ha1 & _).
    apply (has_array_copied s m). by exists label, a, sh, xs.
Qed.


(** C7. [NormalizeLabeld] is idempotent: applied to the record it returned,
    it returns a record with the same bindings and changes no object of
    the store, the arrays included. *)
Theorem normalize_label_idempotent
    (self : NormalizeLabeld) (data : value) (s : state)
    (v1 : value) (s1 : state) :
  NormalizeLabeld_call self data s = Ret v1 s1 →
  ∃ d1 d2 m s2,
    v1 = VRef d1 ∧ heap s1 !! d1 = Some (ODict m) ∧
    NormalizeLabeld_call self v1 s1 = Ret (VRef d2) s2 ∧
    heap s2 !! d2 = Some (ODict m) ∧
    (∀ l, l ≠ d2 → heap s2 !! l = heap s1 !! l) ∧
    trace s2 = trace s1.
Proof.
  intros Hcall.
  destruct (normalize_call_Ret _ _ _ _ _ Hcall)
    as (l & m & -> & Hl & -> & Hloop).
  set (d1 := new_loc (heap s)) in *. set (d2 := new_loc (heap s1)).
  assert (heap (copied s m) !! d1 = Some (ODict m)) as Hd
    by apply lookup_insert_eq.
  destruct (normalize_loop_Ret (nl_value self) self d1 m _ _ _ _ _ _
              eq_refl Hd (norm_rel_refl _ _) Hloop)
    as (Hrel & _ & _ & Hall).
  pose proof (norm_rel_dict _ _ _ _ _ Hrel Hd) as Hd1.
  exists d1, d2, m, (copied s1 m).
  repeat split; try done.
  - unfold NormalizeLabeld_call.
    rewrite bind_eq, (dict_copy_eq _ _ _ Hd1), bind_eq.
    change (mkState _ (trace s1)) with (copied s1 m). fold d2.
    rewrite (normalize_loop_fixed (nl_value self) self d2 m); [done..| |].
    + apply lookup_insert_eq.
    + eapply Forall_impl; [exact Hall|]. simpl.
      intros key (label & a & Hlab & Hst & sh & xs & Ha1 & Ha2).
      exists label, a, sh, (fill_positive (nl_value self) xs).
      rewrite <- (norm_rel_storage _ _ _ _ Hrel) in Hst.
      repeat split; try done.
      * apply storage_insert_fresh; [apply new_loc_None|done].
      * by apply copied_lookup.
      * apply fill_positive_idem.
  - apply lookup_insert_eq.
  - intros l' Hne. simpl. by rewrite lookup_insert_ne.
Qed.

(** ** What else [NormalizeLabeld] does, and what it leaves alone *)

Lemma fill_positive_compose (v w : Z) (xs : list Z) :
  fill_positive w (fill_positive v xs) =
    if (0 <? v)%Z then fill_positive w xs else fill_positive v xs.
Proof.
  unfold fill_positive. rewrite <- list_fmap_compose.
  destruct (0 <? v)%Z eqn:Hv; apply list_fmap_ext; intros _ x _; simpl;
    destruct (0 <? x)%Z eqn:Hx; by rewrite ?Hv, ?Hx.
Qed.

(** The loop writes the arrays behind its keys and nothing else. *)
Lemma normalize_loop_frame self d dm h1 keys : ∀ i s u s',
  h1 !! d = Some (ODict dm) →
  norm_rel (nl_value self) h1 (heap s) →
  for_enumerate (λ _ key _, NormalizeLabeld_body self (VRef d) key)
    i keys tt s = Ret u s' →
  ∀ x,
    (∀ key label, key ∈ keys → dm !! key = Some label →
       storage h1 label ≠ Some x) →
    heap s' !! x = heap s !! x.
Proof.
  induction keys as [|key keys IH]; intros i s u s' Hd Hrel.
  - by intros [= _ <-].
  - rewrite for_enumerate_cons.
    destruct (NormalizeLabeld_body _ _ _ s) as [[] s1|] eqn:Hb; [|done].
    intros Hrest x Hx.
    destruct (normalize_body_rel _ _ _ _ _ _ _ _ _ eq_refl Hd Hrel Hb)
      as (Hrel1 & _).
    pose proof (norm_rel_dict _ _ _ _ _ Hrel Hd) as Hd'.
    destruct (normalize_body_Ret _ _ _ _ _ _ _ _ eq_refl Hd' Hb)
      as (label & a & sh & xs & Hk & Hst & Ha & Hs1).
    rewrite (IH _ _ _ _ Hd Hrel1 Hrest x).
    + rewrite Hs1. simpl. rewrite lookup_insert_ne; [done|]. intros ->.
      apply (Hx key label); [apply list_elem_of_here|done|].
      by rewrite <- (norm_rel_storage _ _ _ _ Hrel).
    + intros key' label' Hin. apply Hx. by apply list_elem_of_further.
Qed.

(** A call on a record whose target keys hold arrays, in full. *)
Lemma normalize_call_effect self s l m :
  heap s !! l = Some (ODict m) →
  Forall (has_array (heap s) m) (nl_keys self) →
  ∃ s',
    NormalizeLabeld_call self (VRef l) s = Ret (VRef (new_loc (heap s))) s' ∧
    heap s' !! new_loc (heap s) = Some (ODict m) ∧
    trace s' = trace s ∧
    (∀ v, storage (heap s') v = storage (heap s) v) ∧
    (∀ key v a sh xs,
       key ∈ nl_keys self → m !! key = Some v →
       storage (heap s) v = Some a → heap s !! a = Some (ONdarray sh xs) →
       heap s' !! a = Some (ONdarray sh (fill_positive (nl_value self) xs))) ∧
    (∀ x, x ≠ new_loc (heap s) →
       (∀ key v, key ∈ nl_keys self → m !! key = Some v →
          storage (heap s) v ≠ Some x) →
       heap s' !! x = heap s !! x).
Proof.
  intros Hl Hall. set (d := new_loc (heap s)).
  assert (heap (copied s m) !! d = Some (ODict m)) as Hd
    by apply lookup_insert_eq.
  destruct (normalize_loop_returns (nl_value self) self d m
              (heap (copied s m)) (nl_keys self) 0%nat (copied s m)
              eq_refl Hd (norm_rel_refl _ _)) as [s' Hloop].
  { eapply Forall_impl; [exact Hall|]. intros key. apply has_array_copied. }
  destruct (normalize_loop_Ret (nl_value self) self d m _ _ _ _ _ _
              eq_refl Hd (norm_rel_refl _ _) Hloop)
    as (Hrel & Htr & _ & Hkeys).
  exists s'. split.
  { unfold NormalizeLabeld_call.
    rewrite bind_eq, (dict_copy_eq _ _ _ Hl), bind_eq.
    change (mkState _ (trace s)) with (copied s m). fold d.
    by rewrite Hloop. }
  split; [by eapply norm_rel_dict|]. split; [done|]. split.
  { intros v. by rewrite (norm_rel_storage _ _ _ _ Hrel), storage_copied. }
  split.
  - intros key v a sh xs Hk Hv Hst Ha. rewrite Forall_forall in Hkeys.
    destruct (Hkeys _ Hk) as (label & a' & Hlab & Hst' & sh' & xs' & Ha1 & Ha2).
    assert (label = v) as -> by congruence.
    rewrite storage_copied, Hst in Hst'. injection Hst' as <-.
    rewrite (copied_lookup _ m _ _ Ha) in Ha1. by injection Ha1 as <- <-.
  - intros x Hx Hno.
    rewrite (normalize_loop_frame _ _ _ _ _ _ _ _ _ Hd (norm_rel_refl _ _)
               Hloop x).
    + simpl. by rewrite lookup_insert_ne.
    + intros key label Hin Hlab. rewrite storage_copied. by eapply Hno.
Qed.





Section Loaders.

Variable Image_open : string → option (list nat * list Z).
Variable PostFix_meta : string.
Variable LoadImaged_call : gmap loc obj → value → value → cres.

Definition tensord_direct (h : gmap loc obj) (v : value) : bool :=
  negb (is_str v).

Definition tensord_tgt (key mk : string) : Prop :=
  mk = key +:+ "_" +:+ PostFix_meta.

Definition exd_tgt (self : LoadImageExd) (key mk : string) : Prop :=
  ∃ i postfix, lie_keys self !! i = Some key ∧
    lie_meta_key_postfix self !! i = Some postfix ∧
    mk = key +:+ "_" +:+ postfix.

Lemma tensord_body_Ret d key acc s b s' :
  LoadImageTensord_body Image_open PostFix_meta (VRef d) key acc s = Ret b s' →
  (∃ p, getitem (VRef d) key s = Ret (VStr p) s ∧ b = acc ∧
        is_Some (Image_open p) ∧
        s' = mkState (heap s) (trace s ++ [EvImageOpen p])) ∨
  (∃ v, getitem (VRef d) key s = Ret v s ∧ is_str v = false ∧ b = false ∧
        wrap_direct (VRef d) key (key +:+ "_" +:+ PostFix_meta) s = Ret tt s').
Proof.
  unfold LoadImageTensord_body. rewrite bind_eq.
  destruct (getitem (VRef d) key s) as [v s1|] eqn:Hg; [|done].
  destruct (getitem_Ret _ _ _ _ _ Hg) as (? & ? & _ & _ & _ & ->).
  destruct v as [| | p | |l].
  3: { unfold np_asarray_Image_open. rewrite !bind_eq. simpl.
       destruct (Image_open p) eqn:Hp; [|done].
       intros [= <- <-]. left. eauto 10. }
  all: rewrite bind_eq;
    destruct (wrap_direct _ _ _ s) as [[] s2|] eqn:Hw; [|done];
    intros [= <- <-]; right; eauto 10.
Qed.

Lemma tensord_loop_lsteps d keys : ∀ i acc s b s',
  for_enumerate (λ _ key ud,
      LoadImageTensord_body Image_open PostFix_meta (VRef d) key ud)
    i keys acc s = Ret b s' →
  lsteps tensord_direct tensord_tgt d keys s s'.
Proof.
  induction keys as [|key keys IH]; intros i acc s b s'.
  - intros [= _ <-]. constructor.
  - rewrite for_enumerate_cons.
    destruct (LoadImageTensord_body _ _ _ _ _ s) as [b1 s1|] eqn:Hb; [|done].
    intros Hrest. apply IH in Hrest.
    destruct (tensord_body_Ret _ _ _ _ _ _ Hb)
      as [(p & Hg & _ & _ & ->)|(v & Hg & Hv & _ & Hw)].
    + by eapply lsteps_skip, Hrest.
    + eapply lsteps_wrap; try done. unfold tensord_direct. by rewrite Hv.
Qed.

(** Once a key passed the test, [use_default] stays false. *)
Lemma tensord_loop_false d keys : ∀ i s b s',
  for_enumerate (λ _ key ud,
      LoadImageTensord_body Image_open PostFix_meta (VRef d) key ud)
    i keys false s = Ret b s' →
  b = false.
Proof.
  induction keys as [|key keys IH]; intros i s b s'.
  - by intros [= <- _].
  - rewrite for_enumerate_cons.
    destruct (LoadImageTensord_body _ _ _ _ _ s) as [b1 s1|] eqn:Hb; [|done].
    destruct (tensord_body_Ret _ _ _ _ _ _ Hb)
      as [(? & _ & -> & _)|(? & _ & _ & -> & _)]; apply IH.
Qed.

(** [use_default] is still true after the loop only if every key was a path
    string, and then nothing was written. *)
Lemma tensord_loop_true d dm keys : ∀ i acc s s',
  heap s !! d = Some (ODict dm) →
  for_enumerate (λ _ key ud,
      LoadImageTensord_body Image_open PostFix_meta (VRef d) key ud)
    i keys acc s = Ret true s' →
  acc = true ∧ heap s' = heap s ∧
  Forall (λ key, ∃ p, dm !! key = Some (VStr p) ∧ is_Some (Image_open p))
    keys.
Proof.
  induction keys as [|key keys IH]; intros i acc s s' Hd.
  - intros [= -> <-]. by repeat split.
  - rewrite for_enumerate_cons.
    destruct (LoadImageTensord_body _ _ _ _ _ s) as [b1 s1|] eqn:Hb; [|done].
    intros Hrest.
    destruct (tensord_body_Ret _ _ _ _ _ _ Hb)
      as [(p & Hg & -> & Hp & ->)|(v & Hg & Hv & -> & Hw)].
    + apply IH in Hrest as (-> & Hh & Hall); [|done].
      repeat split; [done|].
      constructor; [|done]. exists p.
      destruct (getitem_Ret _ _ _ _ _ Hg) as (? & ? & [= <-] & Hd' & ? & _).
      split; [congruence|done].
    + by apply tensord_loop_false in Hrest.
Qed.

(** When every key is a readable path, the loop only decodes. *)
Definition paths_of (dm : gmap string value) (keys : list string) : list string :=
  omap (λ key, match dm !! key with Some (VStr p) => Some p | _ => None end) keys.

Lemma tensord_loop_paths d dm keys : ∀ i acc s,
  heap s !! d = Some (ODict dm) →
  Forall (λ key, ∃ p, dm !! key = Some (VStr p) ∧ is_Some (Image_open p)) keys →
  for_enumerate (λ _ key ud,
      LoadImageTensord_body Image_open PostFix_meta (VRef d) key ud)
    i keys acc s =
  Ret acc (mkState (heap s) (trace s ++ (EvImageOpen <$> paths_of dm keys))).
Proof.
  induction keys as [|key keys IH]; intros i acc s Hd Hall.
  - simpl. rewrite app_nil_r. by destruct s.
  - apply Forall_cons in Hall as [(p & Hk & [a Hp]) Hall].
    rewrite for_enumerate_cons. unfold LoadImageTensord_body at 1.
    rewrite bind_eq, (getitem_eq _ _ _ _ Hd), Hk.
    unfold np_asarray_Image_open. rewrite !bind_eq. simpl. rewrite Hp.
    rewrite !ret_eq, IH by done. simpl. unfold paths_of. simpl. rewrite Hk.
    simpl. by rewrite <- app_assoc.
Qed.

Lemma exd_body_Ret self d i key acc s b s' :
  LoadImageExd_body self (VRef d) i key acc s = Ret b s' →
  (∃ v, getitem (VRef d) key s = Ret v s ∧ is_ndarray (heap s) v = false ∧
        b = acc ∧ s' = s) ∨
  (∃ v postfix, getitem (VRef d) key s = Ret v s ∧
        is_ndarray (heap s) v = true ∧
        lie_meta_key_postfix self !! i = Some postfix ∧ b = true ∧
        wrap_direct (VRef d) key (key +:+ "_" +:+ postfix) s = Ret tt s').
Proof.
  unfold LoadImageExd_body. rewrite bind_eq.
  destruct (getitem (VRef d) key s) as [v s1|] eqn:Hg; [|done].
  destruct (getitem_Ret _ _ _ _ _ Hg) as (? & ? & _ & _ & _ & ->).
  rewrite bind_eq. simpl.
  destruct (is_ndarray (heap s) v) eqn:Hv.
  - destruct (lie_meta_key_postfix self !! i) as [postfix|] eqn:Hp; [|done].
    rewrite bind_eq.
    destruct (wrap_direct _ _ _ s) as [[] s2|] eqn:Hw; [|done].
    intros [= <- <-]. right. eauto 10.
  - intros [= <- <-]. left. eauto 10.
Qed.

Lemma exd_loop_lsteps self d keys : ∀ i acc s b s',
  (∀ j key, keys !! j = Some key → lie_keys self !! (i + j)%nat = Some key) →
  for_enumerate (LoadImageExd_body self (VRef d)) i keys acc s = Ret b s' →
  lsteps is_ndarray (exd_tgt self) d keys s s'.
Proof.
  induction keys as [|key keys IH]; intros i acc s b s' Hkeys.
  - intros [= _ <-]. constructor.
  - rewrite for_enumerate_cons.
    destruct (LoadImageExd_body _ _ _ _ _ s) as [b1 s1|] eqn:Hb; [|done].
    intros Hrest. apply IH in Hrest.
    2: { intros j k Hj. replace (S i + j)%nat with (i + S j)%nat by lia.
         by apply Hkeys. }
    destruct (exd_body_Ret _ _ _ _ _ _ _ _ Hb)
      as [(v & Hg & Hv & _ & ->)|(v & p & Hg & Hv & Hp & _ & Hw)].
    + by eapply lsteps_skip.
    + eapply lsteps_wrap; try done. exists i, p.
      specialize (Hkeys 0%nat key eq_refl).
      by rewrite Nat.add_0_r in Hkeys.
Qed.

(** [direct_image] is still false after the loop only if no key held an
    array, and then nothing was written. *)
Lemma exd_loop_false self d dm keys : ∀ i acc s s',
  heap s !! d = Some (ODict dm) →
  for_enumerate (LoadImageExd_body self (VRef d)) i keys acc s = Ret false s' →
  acc = false ∧ s' = s ∧
  Forall (λ key, ∃ v, dm !! key = Some v ∧ is_ndarray (heap s) v = false) keys.
Proof.
  assert (∀ ks i s b s',
    for_enumerate (LoadImageExd_body self (VRef d)) i ks true s = Ret b s' →
    b = true) as Htrue.
  { intros ks. induction ks as [|key ks IH]; intros i s b s'.
    - by intros [= <- _].
    - rewrite for_enumerate_cons.
      destruct (LoadImageExd_body _ _ _ _ _ s) as [b1 s1|] eqn:Hb; [|done].
      destruct (exd_body_Ret _ _ _ _ _ _ _ _ Hb)
        as [(? & _ & _ & -> & _)|(? & ? & _ & _ & _ & -> & _)]; apply IH. }
  induction keys as [|key keys IH]; intros i acc s s' Hd.
  - intros [= -> <-]. by repeat split.
  - rewrite for_enumerate_cons.
    destruct (LoadImageExd_body _ _ _ _ _ s) as [b1 s1|] eqn:Hb; [|done].
    intros Hrest.
    destruct (exd_body_Ret _ _ _ _ _ _ _ _ Hb)
      as [(v & Hg & Hv & -> & ->)|(v & p & Hg & Hv & Hp & -> & Hw)].
    + destruct (IH _ _ _ _ Hd Hrest) as (-> & Hh & Hall).
      repeat split; [done|].
      constructor; [|done]. exists v.
      destruct (getitem_Ret _ _ _ _ _ Hg) as (? & ? & [= <-] & Hd' & ? & _).
      split; [congruence|done].
    + by apply Htrue in Hrest.
Qed.

Lemma exd_loop_nodirect self d dm keys : ∀ i acc s,
  heap s !! d = Some (ODict dm) →
  Forall (λ key, ∃ v, dm !! key = Some v ∧ is_ndarray (heap s) v = false) keys →
  for_enumerate (LoadImageExd_body self (VRef d)) i keys acc s = Ret acc s.
Proof.
  induction keys as [|key keys IH]; intros i acc s Hd Hall; [done|].
  apply Forall_cons in Hall as [(v & Hk & Hv) Hall].
  rewrite for_enumerate_cons. unfold LoadImageExd_body at 1.
  rewrite bind_eq, (getitem_eq _ _ _ _ Hd), Hk, bind_eq. simpl. rewrite Hv.
  by apply IH.
Qed.

(** ** Records on which the loops raise nothing *)

(** A key [LoadImageTensord] can handle: a path the decoder reads, or an
    array whose metadata key is unbound or bound to a mapping. *)
Definition tensord_ready (h : gmap loc obj) (dm : gmap string value)
    (key : string) : Prop :=
  (∃ p, dm !! key = Some (VStr p) ∧ is_Some (Image_open p)) ∨
  convertible h dm key (key +:+ "_" +:+ PostFix_meta).

Lemma tensord_loop_returns d keys : ∀ i acc s dm,
  heap s !! d = Some (ODict dm) →
  (∀ n, dm !! n ≠ Some (VRef d)) →
  Forall (tensord_ready (heap s) dm) keys →
  ∃ b s',
    for_enumerate (λ _ key ud,
        LoadImageTensord_body Image_open PostFix_meta (VRef d) key ud)
      i keys acc s = Ret b s'.
Proof.
  induction keys as [|key keys IH]; intros i acc s dm Hd Hself Hall.
  - by exists acc, s.
  - apply Forall_cons in Hall as [Hkey Hall]. rewrite for_enumerate_cons.
    destruct Hkey as [(p & Hp & [img Himg])|Hconv].
    + unfold LoadImageTensord_body at 1.
      rewrite bind_eq, (getitem_eq _ _ _ _ Hd), Hp.
      unfold np_asarray_Image_open. rewrite !bind_eq. simpl. rewrite Himg.
      rewrite !ret_eq. by eapply IH.
    + destruct (wrap_direct_returns _ _ _ _ _ Hd Hself Hconv) as [s1 Hw].
      destruct (wrap_direct_le d _ _ _ _ _ (ex_intro _ dm (conj Hd Hself)) Hw)
        as [(dm1 & Hd1 & Hself1) Hle].
      unfold LoadImageTensord_body at 1.
      rewrite bind_eq, (getitem_eq _ _ _ _ Hd).
      destruct Hconv as [(v & a & sh & xs & Hv & Hst & Ha) _]. rewrite Hv.
      destruct (storage_Some _ _ _ Hst) as (x & ? & ? & -> & _).
      rewrite bind_eq, Hw. rewrite ret_eq.
      apply (IH _ _ _ dm1); [done|done|].
      eapply Forall_impl; [exact Hall|].
      intros key' [(p & Hp & Himg)|Hc].
      * left. exists p. split; [|done].
        destruct (wrap_direct_keeps _ _ _ _ _ _ _ _ _ Hd Hself Hw Hp (λ _, I))
          as (dm2 & Hd2 & Hp2).
        by assert (dm2 = dm1) as -> by congruence.
      * right.
        destruct (wrap_direct_convertible _ _ _ _ _ _ _ _ _ Hd Hself Hw Hc)
          as (dm2 & Hd2 & Hc2).
        by assert (dm2 = dm1) as -> by congruence.
Qed.

(** A key [LoadImageExd] can handle: bound, and when it holds an array its
    postfix exists and its metadata key is unbound or bound to a mapping. *)
Definition exd_ready (self : LoadImageExd) (h : gmap loc obj)
    (dm : gmap string value) (i : nat) (key : string) : Prop :=
  ∃ v, dm !! key = Some v ∧
    (is_ndarray h v = true →
     ∃ postfix, lie_meta_key_postfix self !! i = Some postfix ∧
       convertible h dm key (key +:+ "_" +:+ postfix)).

Lemma wrap_direct_exd_ready self d dm key mk s u s' i key' :
  heap s !! d = Some (ODict dm) →
  (∀ n, dm !! n ≠ Some (VRef d)) →
  wrap_direct (VRef d) key mk s = Ret u s' →
  exd_ready self (heap s) dm i key' →
  ∃ dm', heap s' !! d = Some (ODict dm') ∧ exd_ready self (heap s') dm' i key'.
Proof.
  intros Hd Hself Hw (v' & Hv' & Hnd).
  destruct (wrap_direct_step _ _ _ _ _ _ _ Hd Hself Hw)
    as (v & a & sh & xs & md & mm & t & Hv & Hsto & Ha & Hkey & Hcase & Ht
        & Hut & Hmd & Htd & Htm & Hd' & Ht' & Hmd' & Hframe & _).
  eexists. split; [exact Hd'|].
  destruct (decide (key' = key)) as [->|Hne].
  { exists (VRef t). rewrite lookup_insert_eq. split; [done|].
    simpl. by rewrite Ht'. }
  destruct (decide (mk = key')) as [<-|Hmne].
  { exists (VRef md). rewrite lookup_insert_ne, lookup_insert_eq by done.
    split; [done|]. simpl. by rewrite Hmd'. }
  exists v'. rewrite !lookup_insert_ne by done. split; [done|].
  intros Hnd'.
  assert (is_ndarray (heap s) v' = true) as Hnd0.
  { destruct v' as [| | | |x]; try done. simpl in *.
    destruct (decide (x = d)) as [->|?]; [by rewrite Hd' in Hnd'|].
    destruct (decide (x = t)) as [->|?]; [by rewrite Ht' in Hnd'|].
    destruct (decide (x = md)) as [->|?]; [by rewrite Hmd' in Hnd'|].
    by rewrite Hframe in Hnd'. }
  destruct (Hnd Hnd0) as (postfix & Hp & Hc).
  exists postfix. split; [done|].
  destruct (wrap_direct_convertible _ _ _ _ _ _ _ _ _ Hd Hself Hw Hc)
    as (dm2 & Hd2 & Hc2).
  rewrite Hd' in Hd2. by injection Hd2 as <-.
Qed.

Lemma exd_loop_returns self d keys : ∀ i acc s dm,
  heap s !! d = Some (ODict dm) →
  (∀ n, dm !! n ≠ Some (VRef d)) →
  (∀ j key, keys !! j = Some key →
     exd_ready self (heap s) dm (i + j) key) →
  ∃ b s', for_enumerate (LoadImageExd_body self (VRef d)) i keys acc s
            = Ret b s'.
Proof.
  induction keys as [|key keys IH]; intros i acc s dm Hd Hself Hall.
  - by exists acc, s.
  - rewrite for_enumerate_cons.
    assert (∀ j key', keys !! j = Some key' →
              exd_ready self (heap s) dm (S i + j) key') as Hrest.
    { intros j key' Hj. replace (S i + j)%nat with (i + S j)%nat by lia.
      by apply Hall. }
    destruct (Hall 0%nat key eq_refl) as (v & Hv & Hnd).
    rewrite Nat.add_0_r in Hnd.
    unfold LoadImageExd_body at 1.
    rewrite bind_eq, (getitem_eq _ _ _ _ Hd), Hv, bind_eq. simpl.
    destruct (is_ndarray (heap s) v) eqn:Hv'; [|by eapply IH].
    destruct (Hnd eq_refl) as (postfix & Hp & Hconv). rewrite Hp.
    destruct (wrap_direct_returns _ _ _ _ _ Hd Hself Hconv) as [s1 Hw].
    destruct (wrap_direct_le d _ _ _ _ _ (ex_intro _ dm (conj Hd Hself)) Hw)
      as [(dm1 & Hd1 & Hself1) Hle].
    rewrite bind_eq, Hw, ret_eq.
    apply (IH _ _ _ dm1); [done|done|].
    intros j key' Hj.
    destruct (wrap_direct_exd_ready self _ _ _ _ _ _ _ (S i + j) key'
                Hd Hself Hw (Hrest _ _ Hj)) as (dm2 & Hd2 & Hr).
    by assert (dm2 = dm1) as -> by congruence.
Qed.

(** ** Both loaders at once *)

Inductive loader : Type :=
| Tensord (self : LoadImageTensord)
| Exd (self : LoadImageExd) (reader : value).

Definition loader_call (L : loader) (data : value) : M value :=
  match L with
  | Tensord self =>
    LoadImageTensord_call Image_open PostFix_meta self data
  | Exd self reader =>
    LoadImageExd_call LoadImaged_call self data reader
  end.

Definition loader_keys (L : loader) : list string :=
  match L with
  | Tensord self => lit_keys self
  | Exd self _ => lie_keys self
  end.

(** [loader_tgt L key mk]: [mk] is a metadata key of the target key [key]. *)
Definition loader_tgt (L : loader) : string → string → Prop :=
  match L with
  | Tensord _ => tensord_tgt
  | Exd self _ => exd_tgt self
  end.

(** The test that selects the keys handled directly. *)
Definition loader_direct (L : loader) : gmap loc obj → value → bool :=
  match L with
  | Tensord _ => tensord_direct
  | Exd _ _ => is_ndarray
  end.

Lemma loader_direct_ndarray L h a sh xs :
  h !! a = Some (ONdarray sh xs) → loader_direct L h (VRef a) = true.
Proof. intros Ha. destruct L; simpl; [done|]. by rewrite Ha. Qed.

Lemma tensord_own_meta_keys k : own_meta_keys tensord_tgt k.
Proof.
  intros k' mk -> H. unfold tensord_tgt in H. symmetry.
  by apply string_app_inj_r in H.
Qed.

(** A call that returns although some target key held an array returns the
    working copy, after a run of the loop that raised nothing. *)
Lemma loader_call_direct L s l m v s' k a sh xs :
  heap s !! l = Some (ODict m) →
  k ∈ loader_keys L → m !! k = Some (VRef a) →
  heap s !! a = Some (ONdarray sh xs) →
  loader_call L (VRef l) s = Ret v s' →
  v = VRef (new_loc (heap s)) ∧
  lsteps (loader_direct L) (loader_tgt L) (new_loc (heap s))
    (loader_keys L) (copied s m) s'.
Proof.
  intros Hl Hk Hmk Ha. set (d := new_loc (heap s)).
  assert (heap (copied s m) !! d = Some (ODict m)) as Hd
    by apply lookup_insert_eq.
  destruct L as [self|self reader]; simpl.
  - unfold LoadImageTensord_call.
    rewrite bind_eq, (dict_copy_eq _ _ _ Hl), bind_eq.
    change (mkState _ (trace s)) with (copied s m). fold d.
    unfold LoadImageTensord_loop.
    destruct (for_enumerate _ 0 (lit_keys self) true (copied s m))
      as [b s2|] eqn:Hloop; [|done].
    destruct b.
    + apply (tensord_loop_true _ _ _ _ _ _ _ Hd) in Hloop as (_ & _ & Hall).
      rewrite Forall_forall in Hall. destruct (Hall _ Hk) as (p & Hp & _).
      congruence.
    + intros [= <- <-]. split; [done|]. by eapply tensord_loop_lsteps.
  - unfold LoadImageExd_call.
    rewrite bind_eq, (dict_copy_eq _ _ _ Hl), bind_eq.
    change (mkState _ (trace s)) with (copied s m). fold d.
    unfold LoadImageExd_loop.
    destruct (for_enumerate _ 0 (lie_keys self) false (copied s m))
      as [b s2|] eqn:Hloop; [|done].
    destruct b; simpl.
    + intros [= <- <-]. split; [done|].
      eapply exd_loop_lsteps; [|exact Hloop]. by intros j key.
    + apply (exd_loop_false _ _ _ _ _ _ _ _ Hd) in Hloop as (_ & _ & Hall).
      rewrite Forall_forall in Hall. destruct (Hall _ Hk) as (w & Hw & Hnd).
      assert (w = VRef a) as -> by congruence.
      unfold is_ndarray in Hnd.
      by rewrite (copied_lookup _ _ _ _ Ha) in Hnd.
Qed.

(** Records on which a loader's loop raises nothing. *)
Definition loader_ready (L : loader) (h : gmap loc obj)
    (m : gmap string value) : Prop :=
  match L with
  | Tensord self => Forall (tensord_ready h m) (lit_keys self)
  | Exd self _ =>
    ∀ i key, lie_keys self !! i = Some key → exd_ready self h m i key
  end.

(** On such a record, a call with an array-valued target key returns the
    working copy. *)
Lemma loader_call_returns L s l m k a sh xs :
  heap s !! l = Some (ODict m) →
  k ∈ loader_keys L → m !! k = Some (VRef a) →
  heap s !! a = Some (ONdarray sh xs) →
  loader_ready L (heap s) m →
  ∃ s', loader_call L (VRef l) s = Ret (VRef (new_loc (heap s))) s'.
Proof.
  intros Hl Hk Hmk Ha Hready. set (d := new_loc (heap s)).
  assert (heap (copied s m) !! d = Some (ODict m)) as Hd
    by apply lookup_insert_eq.
  assert (∀ n, m !! n ≠ Some (VRef d)) as Hself
    by (intros n; by eapply new_loc_unreferenced).
  destruct L as [self|self reader]; simpl in Hk, Hready |- *.
  - destruct (tensord_loop_returns d (lit_keys self) 0%nat true
                (copied s m) m Hd Hself) as (b & s' & Hloop).
    { eapply Forall_impl; [exact Hready|].
      intros key [?|Hc]; [by left|right]. by apply convertible_copied. }
    exists s'. unfold LoadImageTensord_call.
    rewrite bind_eq, (dict_copy_eq _ _ _ Hl), bind_eq.
    change (mkState _ (trace s)) with (copied s m). fold d.
    unfold LoadImageTensord_loop. rewrite Hloop.
    destruct b; [|done].
    apply (tensord_loop_true _ _ _ _ _ _ _ Hd) in Hloop as (_ & _ & Hall).
    rewrite Forall_forall in Hall. destruct (Hall _ Hk) as (p & Hp & _).
    congruence.
  - destruct (exd_loop_returns self d (lie_keys self) 0%nat false
                (copied s m) m Hd Hself) as (b & s' & Hloop).
    { intros j key Hj. destruct (Hready _ _ Hj) as (v & Hv & Hnd).
      exists v. split; [done|]. rewrite is_ndarray_copied. intros Hv'.
      destruct (Hnd Hv') as (postfix & Hp & Hc).
      exists postfix. split; [done|]. by apply convertible_copied. }
    exists s'. unfold LoadImageExd_call.
    rewrite bind_eq, (dict_copy_eq _ _ _ Hl), bind_eq.
    change (mkState _ (trace s)) with (copied s m). fold d.
    unfold LoadImageExd_loop. rewrite Hloop.
    destruct b; [done|].
    apply (exd_loop_false _ _ _ _ _ _ _ _ Hd) in Hloop as (_ & _ & Hall).
    rewrite Forall_forall in Hall. destruct (Hall _ Hk) as (w & Hw & Hnd).
    assert (w = VRef a) as -> by congruence.
    unfold is_ndarray in Hnd.
    by rewrite (copied_lookup _ _ _ _ Ha) in Hnd.
Qed.

Lemma copied_tracked strict L s l m k a sh xs :
  heap s !! l = Some (ODict m) →
  m !! k = Some (VRef a) → heap s !! a = Some (ONdarray sh xs) →
  (strict = true → unshared (loader_tgt L) k m) →
  tracked (loader_tgt L) (new_loc (heap s)) strict k a sh xs (copied s m).
Proof.
  intros Hl Hk Ha Hun. exists m.
  split; [apply lookup_insert_eq|].
  split; [intros n; by eapply new_loc_unreferenced|].
  split; [by eapply copied_lookup|]. split; [done|by left].
Qed.

(** For [LoadImageExd] the metadata key depends on the position of the key
    ([meta_key_postfix[i]]); the keys of [k] must not be those of another
    target key.  [LoadImageTensord] uses one suffix for all keys. *)
Definition separate_meta_keys (L : loader) (k : string) : Prop :=
  match L with
  | Tensord _ => True
  | Exd self _ => own_meta_keys (exd_tgt self) k
  end.

Lemma separate_own_meta_keys L k :
  separate_meta_keys L k → own_meta_keys (loader_tgt L) k.
Proof. destruct L; [intros _; apply tensord_own_meta_keys|done]. Qed.



(** The record a call returns after handling some array directly. *)
Lemma loader_call_record L s l m v s' k a sh xs :
  heap s !! l = Some (ODict m) →
  k ∈ loader_keys L → m !! k = Some (VRef a) →
  heap s !! a = Some (ONdarray sh xs) →
  loader_call L (VRef l) s = Ret v s' →
  ∃ dm, v = VRef (new_loc (heap s)) ∧
    heap s' !! new_loc (heap s) = Some (ODict dm) ∧
    ∀ n w, m !! n = Some w → inert (heap s) w → dm !! n = Some w.
Proof.
  intros Hl Hk Hmk Ha Hcall.
  destruct (loader_call_direct _ _ _ _ _ _ _ _ _ _ Hl Hk Hmk Ha Hcall)
    as [-> Hsteps].
  pose proof (copied_copy_ok _ _ _ Hl) as Hok.
  destruct (lsteps_le _ _ _ _ _ _ Hsteps Hok) as [(dm & Hd & _) _].
  exists dm. repeat split; try done.
  intros n w Hn Hw.
  destruct (lsteps_inert _ _ _ _ _ _ Hsteps Hok m n w) as (dm' & Hd' & Hn');
    [apply lookup_insert_eq|done| |congruence].
  destruct w as [| | | |x]; try done. destruct Hw as [mm Hx].
  exists mm. by eapply copied_lookup.
Qed.

(** C2, as the specification states it: once some target key holds an
    array, that key and every target key after it end up as tensors. *)
Definition exd_converts_following_keys (self : LoadImageExd)
    (reader data : value) (s : state) : Prop :=
  ∀ l m i k a sh xs v s',
    data = VRef l → heap s !! l = Some (ODict m) →
    lie_keys self !! i = Some k →
    m !! k = Some (VRef a) → heap s !! a = Some (ONdarray sh xs) →
    LoadImageExd_call LoadImaged_call self data reader s = Ret v s' →
    ∃ d dm, v = VRef d ∧ heap s' !! d = Some (ODict dm) ∧
      ∀ j k', (i ≤ j)%nat → lie_keys self !! j = Some k' →
        ∃ t x md, dm !! k' = Some (VRef t) ∧
          heap s' !! t = Some (OMetaTensor x md).



(** *** Which calls leave the loaders *)

Lemma emits_tensord_loop self d :
  emits is_image_open
    (LoadImageTensord_loop Image_open PostFix_meta self d).
Proof.
  apply emits_for_enumerate. intros _ key acc.
  unfold LoadImageTensord_body, np_asarray_Image_open.
  repeat emits_step; by apply emits_emit.
Qed.

Lemma emits_exd_loop self d : emits no_event (LoadImageExd_loop self d).
Proof.
  apply emits_for_enumerate. intros i key acc.
  unfold LoadImageExd_body. repeat emits_step.
Qed.



(** *** The caller's dictionary *)

(** A collaborator that, called on another object, leaves [l0] alone. *)
Definition frames (f : callable) (l0 : loc) : Prop :=
  ∀ h arg, arg ≠ VRef l0 → cres_heap (f h arg) !! l0 = h !! l0.

Lemma hoare_tensord_loop_apart l0 d m self :
  d ≠ l0 →
  hoare (apart l0 d m)
    (LoadImageTensord_loop Image_open PostFix_meta self (VRef d))
    (λ _, apart l0 d m) (apart l0 d m).
Proof.
  intros Hne. apply hoare_for_enumerate. intros _ key acc.
  unfold LoadImageTensord_body.
  eapply hoare_bind; [by apply hoare_getitem_apart|].
  intros v. apply hoare_pure. intros _.
  assert (hoare (apart l0 d m)
    (wrap_direct (VRef d) key (key +:+ "_" +:+ PostFix_meta);; mret false)
    (λ _, apart l0 d m) (apart l0 d m)) as Hwrap.
  { eapply hoare_bind; [by apply hoare_wrap_direct_apart|].
    intros ?. by apply hoare_ret. }
  destruct v as [| | p | |x]; try exact Hwrap.
  intros s Hs. unfold np_asarray_Image_open. rewrite !bind_eq. simpl.
  by destruct (Image_open p).
Qed.

Lemma hoare_exd_loop_apart l0 d m self :
  d ≠ l0 →
  hoare (apart l0 d m) (LoadImageExd_loop self (VRef d))
    (λ _, apart l0 d m) (apart l0 d m).
Proof.
  intros Hne. apply hoare_for_enumerate. intros i key acc.
  unfold LoadImageExd_body.
  eapply hoare_bind; [by apply hoare_getitem_apart|].
  intros v. apply hoare_pure. intros _.
  intros s Hs. rewrite bind_eq. simpl.
  destruct (is_ndarray (heap s) v); [|done].
  destruct (lie_meta_key_postfix self !! i) as [postfix|]; [|done].
  revert s Hs.
  change (hoare (apart l0 d m)
    (wrap_direct (VRef d) key (key +:+ "_" +:+ postfix);; mret true)
    (λ _, apart l0 d m) (apart l0 d m)).
  eapply hoare_bind; [by apply hoare_wrap_direct_apart|].
  intros ?. by apply hoare_ret.
Qed.

Lemma hoare_normalize_loop_kept l0 d m self :
  d ≠ l0 →
  hoare (kept l0 m)
    (for_enumerate (λ _ key _, NormalizeLabeld_body self (VRef d) key)
       0 (nl_keys self) tt)
    (λ _, kept l0 m) (kept l0 m).
Proof.
  intros Hne. apply hoare_for_enumerate. intros _ key [].
  intros s Hs. unfold NormalizeLabeld_body. rewrite bind_eq.
  pose proof (getitem_final (VRef d) key s) as Hfin.
  destruct (getitem (VRef d) key s) as [label s1|e s1] eqn:Hg;
    simpl in Hfin; subst s1; [|done].
  destruct (getitem_Ret _ _ _ _ _ Hg) as (? & dm & [= <-] & Hd & _ & _).
  rewrite bind_eq.
  destruct (setitem_positive label (nl_value self) s) as [[] s1|e s1] eqn:Hp.
  - destruct (setitem_positive_Ret _ _ _ _ _ Hp)
      as (a & sh & xs & _ & Ha & ->).
    assert (a ≠ l0) by (unfold kept in Hs; congruence).
    assert (a ≠ d) by congruence.
    erewrite setitem_eq by (simpl; rewrite lookup_insert_ne by done; exact Hd).
    unfold kept in *. simpl. by rewrite !lookup_insert_ne.
  - unfold setitem_positive in Hp. rewrite bind_eq in Hp. simpl in Hp.
    repeat case_match; try done; by injection Hp as _ <-.
Qed.

Lemma copied_apart s l0 m :
  heap s !! l0 = Some (ODict m) →
  (∀ n, m !! n ≠ Some (VRef l0)) →
  apart l0 (new_loc (heap s)) m (copied s m).
Proof.
  intros Hl0 Hno. split; [by apply copied_lookup|].
  exists m. split; [apply lookup_insert_eq|done].
Qed.


(** *** Missing keys *)

(** A key that the caller's record does not bind is, in the working copy of
    [LoadImageTensord], unbound or bound to something that is neither a
    path string nor an array (a mapping made for another key): the loop
    cannot get past it. *)
Definition unusable (d : loc) (k : string) (s : state) : Prop :=
  ∃ dm, heap s !! d = Some (ODict dm) ∧
    (dm !! k = None ∨
     ∃ w, dm !! k = Some w ∧ inert (heap s) w ∧ is_str w = false).

Lemma tensord_lsteps_missing d k keys s s' :
  lsteps tensord_direct tensord_tgt d keys s s' →
  copy_ok d s → unusable d k s → k ∉ keys.
Proof.
  induction 1 as [s|key keys s s1 s' v Hg Hdir Hh _ IH
                  |key mk keys s s1 s' v _ Hg Hdir Hw _ IH];
    intros Hok (dm & Hd & Hk).
  - apply not_elem_of_nil.
  - destruct (getitem_Ret _ _ _ _ _ Hg) as (? & dm' & [= <-] & Hd' & Hv & _).
    assert (dm' = dm) as -> by congruence.
    apply not_elem_of_cons. split.
    + intros ->. destruct Hk as [Hk|(w & Hw & _ & Hstr)]; [congruence|].
      assert (w = v) as -> by congruence.
      unfold tensord_direct in Hdir. by rewrite Hstr in Hdir.
    + apply IH.
      * unfold copy_ok in *. by rewrite Hh.
      * exists dm. rewrite Hh. by split.
  - destruct (wrap_direct_le _ _ _ _ _ _ Hok Hw) as [Hok1 Hle].
    destruct Hok as (dm0 & Hd0 & Hself).
    assert (dm0 = dm) as -> by congruence.
    destruct (wrap_direct_step _ _ _ _ _ _ _ Hd Hself Hw)
      as (v' & a & sh & xs & md & mm & t & Hv & Hsto & Ha & Hkey & Hcase & Ht
          & Hut & Hmd & Htd & Htm & Hd' & Ht' & Hmd' & Hframe & _).
    assert (key ≠ k) as Hne.
    { intros ->. destruct Hk as [Hk|(w & Hw' & Hin & _)]; [congruence|].
      apply inert_no_storage in Hin. congruence. }
    apply not_elem_of_cons. split; [done|].
    apply IH; [done|]. eexists. split; [exact Hd'|].
    rewrite lookup_insert_ne by done.
    destruct (decide (mk = k)) as [->|Hmk].
    + right. exists (VRef md). rewrite lookup_insert_eq.
      repeat split; try done. by eexists.
    + rewrite lookup_insert_ne by done.
      destruct Hk as [Hk|(w & Hw' & Hin & Hstr)]; [by left|right].
      exists w. repeat split; try done. by eapply inert_le.
Qed.

(** A key that the working copy does not bind stays unbound while the loop
    handles keys of which it is not the metadata key. *)
Lemma tensord_lsteps_unbound d k keys s s' :
  lsteps tensord_direct tensord_tgt d keys s s' →
  copy_ok d s →
  Forall (λ key, k ≠ key +:+ "_" +:+ PostFix_meta) keys →
  (∃ dm, heap s !! d = Some (ODict dm) ∧ dm !! k = None) →
  ∃ dm', heap s' !! d = Some (ODict dm') ∧ dm' !! k = None.
Proof.
  induction 1 as [s|key keys s s1 s' v Hg Hdir Hh _ IH
                  |key mk keys s s1 s' v Htg Hg Hdir Hw _ IH];
    intros Hok Hsep (dm & Hd & Hk).
  - eauto.
  - apply Forall_cons in Hsep as [_ Hsep]. apply IH; [|done|].
    + unfold copy_ok in *. by rewrite Hh.
    + exists dm. by rewrite Hh.
  - apply Forall_cons in Hsep as [Hne Hsep].
    destruct (wrap_direct_le _ _ _ _ _ _ Hok Hw) as [Hok1 Hle].
    destruct Hok as (dm0 & Hd0 & Hself).
    assert (dm0 = dm) as -> by congruence.
    destruct (wrap_direct_step _ _ _ _ _ _ _ Hd Hself Hw)
      as (v' & a & sh & xs & md & mm & t & Hv & Hsto & Ha & Hkey & Hcase & Ht
          & Hut & Hmd & Htd & Htm & Hd' & Ht' & Hmd' & Hframe & _).
    apply IH; [done|done|]. eexists. split; [exact Hd'|].
    rewrite !lookup_insert_ne; [done| |].
    + intros ->. by apply Hne.
    + intros ->. congruence.
Qed.


(** ** Error paths of [LoadImageTensord] *)

(** The loop over [pre], as the call runs it. *)
Definition tensord_prefix_run (pre : list string) (s : state)
    (m : gmap string value) : outcome bool :=
  for_enumerate (λ _ key ud,
      LoadImageTensord_body Image_open PostFix_meta
        (VRef (new_loc (heap s))) key ud)
    0 pre true (copied s m).

Lemma tensord_call_split self s l m pre k post :
  heap s !! l = Some (ODict m) →
  lit_keys self = pre ++ k :: post →
  LoadImageTensord_call Image_open PostFix_meta self (VRef l) s =
    match tensord_prefix_run pre s m with
    | Ret b1 s1 =>
      match LoadImageTensord_body Image_open PostFix_meta
              (VRef (new_loc (heap s))) k b1 s1 with
      | Ret b2 s2 =>
        match for_enumerate (λ _ key ud,
                  LoadImageTensord_body Image_open PostFix_meta
                    (VRef (new_loc (heap s))) key ud)
                (S (0 + length pre)) post b2 s2 with
        | Ret true s3 =>
          match lit_load_image_d self with
          | Some load_image_d =>
            (emit (EvDefaultLoader (VRef (new_loc (heap s))));;
             invoke load_image_d (VRef (new_loc (heap s)))) s3
          | None => Raise TypeError s3
          end
        | Ret false s3 => Ret (VRef (new_loc (heap s))) s3
        | Raise e s3 => Raise e s3
        end
      | Raise e s2 => Raise e s2
      end
    | Raise e s1 => Raise e s1
    end.
Proof.
  intros Hl Hkeys. unfold LoadImageTensord_call, tensord_prefix_run.
  rewrite bind_eq, (dict_copy_eq _ _ _ Hl), bind_eq.
  change (mkState _ (trace s)) with (copied s m).
  unfold LoadImageTensord_loop. rewrite Hkeys, for_enumerate_app.
  destruct (for_enumerate _ 0 pre true (copied s m)) as [b1 s1|]; [|done].
  rewrite for_enumerate_cons.
  destruct (LoadImageTensord_body _ _ _ _ _ s1) as [b2 s2|]; [|done].
  destruct (for_enumerate _ _ post b2 s2) as [[] s3|]; try done.
  by destruct (lit_load_image_d self).
Qed.

(** While the loop over [pre] runs, a key bound to a string, a number,
    [None] or a mapping keeps its binding, and the loop makes no call but
    decoding. *)
Lemma tensord_prefix_run_Ret pre s l m b1 s1 k v :
  heap s !! l = Some (ODict m) →
  tensord_prefix_run pre s m = Ret b1 s1 →
  m !! k = Some v → inert (heap s) v →
  ∃ dm1, heap s1 !! new_loc (heap s) = Some (ODict dm1) ∧
    (∀ n, dm1 !! n ≠ Some (VRef (new_loc (heap s)))) ∧
    dm1 !! k = Some v ∧ inert (heap s1) v.
Proof.
  intros Hl Hrun Hk Hin. apply tensord_loop_lsteps in Hrun.
  pose proof (copied_copy_ok _ _ _ Hl) as Hok.
  assert (inert (heap (copied s m)) v) as Hin0.
  { destruct v as [| | | |x]; try done. destruct Hin as [mm Hx].
    exists mm. by apply copied_lookup. }
  destruct (lsteps_le _ _ _ _ _ _ Hrun Hok) as [(dm1 & Hd1 & Hself1) Hle].
  destruct (lsteps_inert _ _ _ _ _ _ Hrun Hok m k v) as (dm' & Hd' & Hk');
    [apply lookup_insert_eq|done..|].
  assert (dm' = dm1) as -> by congruence.
  exists dm1. repeat split; try done. by eapply inert_le.
Qed.

Lemma tensord_prefix_run_trace pre s m x :
  EvDefaultLoader x ∈ trace (final (tensord_prefix_run pre s m)) →
  EvDefaultLoader x ∈ trace s.
Proof.
  destruct (emits_tensord_loop (mkLoadImageTensord pre false None)
              (VRef (new_loc (heap s))) (copied s m)) as (evs & Htr & Hevs).
  unfold tensord_prefix_run. unfold LoadImageTensord_loop in Htr.
  cbn [lit_keys] in Htr. rewrite Htr. simpl.
  intros [?|Hin]%elem_of_app; [done|].
  rewrite Forall_forall in Hevs. by apply Hevs in Hin.
Qed.



(** X7. A target key bound to a value that is no string and has no shape
    (a number, [None], a tuple, a mapping) makes [LoadImageTensord] raise
    [AttributeError] once the keys before it have been handled (an error
    of one of those comes first): the call never returns, and neither
    decodes nor calls the default loader for that key. *)
Theorem tensord_shapeless_value_raises
    (self : LoadImageTensord) (s : state) (l : loc) (m : gmap string value)
    (pre post : list string) (k : string) (v : value) :
  heap s !! l = Some (ODict m) →
  lit_keys self = pre ++ k :: post →
  m !! k = Some v →
  inert (heap s) v →
  is_str v = false →
  (∀ e s1,
     tensord_prefix_run pre s m = Raise e s1 →
     LoadImageTensord_call Image_open PostFix_meta self (VRef l) s
       = Raise e s1) ∧
  (∀ b1 s1,
     tensord_prefix_run pre s m = Ret b1 s1 →
     ∃ s2,
       LoadImageTensord_call Image_open PostFix_meta self (VRef l) s
         = Raise AttributeError s2 ∧
       trace s2 = trace s1).
Proof.
  intros Hl Hkeys Hk Hin Hstr.
  rewrite (tensord_call_split _ _ _ _ _ _ _ Hl Hkeys).
  split; [by intros e s1 ->|]. intros b1 s1 Hrun. rewrite Hrun.
  destruct (tensord_prefix_run_Ret _ _ _ _ _ _ k v Hl Hrun Hk Hin)
    as (dm1 & Hd1 & Hself1 & Hk1 & Hin1).
  set (d := new_loc (heap s)) in *.
  set (mk := k +:+ "_" +:+ PostFix_meta).
  assert (∃ s2, wrap_direct (VRef d) k mk s1 = Raise AttributeError s2 ∧
                trace s2 = trace s1) as (s2 & Hw & Htr).
  { unfold wrap_direct. rewrite bind_eq, (setdefault_empty_eq _ _ _ _ Hd1).
    destruct (dm1 !! mk) as [w|] eqn:Hmk.
    - rewrite bind_eq, (getitem_eq _ _ _ _ Hd1), Hk1.
      rewrite bind_eq, getattr_shape_eq. unfold shape_of.
      rewrite (inert_no_storage _ _ Hin1). simpl. eauto.
    - simpl. set (e := new_loc (heap s1)).
      set (h1 := <[d:=ODict (<[mk:=VRef e]> dm1)]> (<[e:=ODict ∅]> (heap s1))).
      assert (h1 !! d = Some (ODict (<[mk:=VRef e]> dm1))) as Hd2
        by apply lookup_insert_eq.
      assert (k ≠ mk) as Hne by congruence.
      rewrite bind_eq. erewrite getitem_eq by exact Hd2.
      rewrite lookup_insert_ne, Hk1 by done.
      rewrite bind_eq, getattr_shape_eq. simpl. fold h1.
      assert (storage h1 v = None) as Hst.
      { apply inert_no_storage. destruct v as [| | | |x]; try done.
        destruct Hin1 as [mm Hx]. unfold h1. simpl.
        destruct (decide (x = d)) as [->|?];
          [rewrite lookup_insert_eq; eauto|].
        rewrite lookup_insert_ne by done.
        destruct (decide (x = e)) as [->|?];
          [rewrite lookup_insert_eq; eauto|].
        rewrite lookup_insert_ne by done. eauto. }
      unfold shape_of. rewrite Hst. simpl. eauto. }
  exists s2. split; [|done]. unfold LoadImageTensord_body. subst mk.
  rewrite bind_eq, (getitem_eq _ _ _ _ Hd1), Hk1.
  destruct v as [| | p | |x]; try done; by rewrite bind_eq, Hw.
Qed.

(** ** What the loaders leave alone *)

(** Relative to [h], the store [h'] has the same arrays and tensors, and
    its mappings have the same entries under every name but the three
    metadata names. *)
Definition heap_keeps (h h' : gmap loc obj) : Prop :=
  ∀ x o, h !! x = Some o →
    match o with
    | ODict mm =>
      ∃ mm', h' !! x = Some (ODict mm') ∧
        ∀ n, n ∉ meta_names → mm' !! n = mm !! n
    | _ => h' !! x = Some o
    end.

Lemma lookup_meta_entries_ne sh (mm : gmap string value) n :
  n ∉ meta_names → meta_entries sh mm !! n = mm !! n.
Proof.
  unfold meta_names. rewrite !not_elem_of_union, !not_elem_of_singleton.
  intros [[? ?] ?]. unfold meta_entries. by rewrite !lookup_insert_ne.
Qed.

Lemma wrap_direct_heap_keeps h0 d key mk s u s' :
  h0 !! d = None →
  copy_ok d s →
  wrap_direct (VRef d) key mk s = Ret u s' →
  heap_keeps h0 (heap s) → heap_keeps h0 (heap s').
Proof.
  intros Hd0 (dm & Hd & Hself) Hw Hkeep x o Hx.
  destruct (wrap_direct_step _ _ _ _ _ _ _ Hd Hself Hw)
    as (v & a & sh & xs & md & mm & t & Hv & Hsto & Ha & Hkey & Hcase & Ht
        & Hut & Hmd & Htd & Htm & Hd' & Ht' & Hmd' & Hframe & _).
  assert (x ≠ d) as Hxd by congruence.
  specialize (Hkeep x o Hx).
  destruct o as [mm0|sh0 xs0|y md0].
  - destruct Hkeep as (mm1 & Hx1 & Hsame).
    assert (x ≠ t) as Hxt by congruence.
    destruct (decide (x = md)) as [->|Hxm].
    + destruct Hcase as [[_ Hm]|(_ & Hm & _)]; [|congruence].
      assert (mm1 = mm) as -> by congruence.
      exists (meta_entries sh mm). split; [done|].
      intros n Hn. rewrite lookup_meta_entries_ne by done. by apply Hsame.
    + exists mm1. by rewrite Hframe.
  - rewrite Hframe; [done|done|congruence|].
    intros ->. destruct Hcase as [[_ ?]|(_ & ? & _)]; congruence.
  - rewrite Hframe; [done|done|congruence|].
    intros ->. destruct Hcase as [[_ ?]|(_ & ? & _)]; congruence.
Qed.

Lemma lsteps_heap_keeps direct tgt h0 d keys s s' :
  lsteps direct tgt d keys s s' →
  h0 !! d = None → copy_ok d s →
  heap_keeps h0 (heap s) → heap_keeps h0 (heap s').
Proof.
  induction 1 as [s|key keys s s1 s' v _ _ Hh _ IH
                  |key mk keys s s1 s' v _ _ _ Hw _ IH];
    intros Hd0 Hok Hkeep.
  - done.
  - unfold copy_ok in *. rewrite Hh in IH. by apply IH.
  - destruct (wrap_direct_le _ _ _ _ _ _ Hok Hw) as [Hok1 _].
    apply IH; [done|done|].
    exact (wrap_direct_heap_keeps _ _ _ _ _ _ _ Hd0 Hok Hw Hkeep).
Qed.


(** ** Files that [LoadImageTensord] decodes *)

Lemma paths_of_wrap dm key mk t md keys v :
  dm !! key = Some v → is_str v = false →
  (dm !! mk = None ∨ dm !! mk = Some (VRef md)) →
  paths_of (<[key := VRef t]> (<[mk := VRef md]> dm)) keys = paths_of dm keys.
Proof.
  intros Hv Hstr Hmk.
  assert (∀ k',
    match <[key := VRef t]> (<[mk := VRef md]> dm) !! k' with
    | Some (VStr p) => Some p | _ => None end =
    match dm !! k' with Some (VStr p) => Some p | _ => None end) as Hf.
  { intros k'. rewrite !lookup_insert. repeat case_decide; subst.
    - rewrite Hv. by destruct v.
    - by destruct Hmk as [-> | ->].
    - done. }
  unfold paths_of, omap. induction keys as [|k' keys IH]; [done|].
  simpl. by rewrite IH, Hf.
Qed.

Lemma tensord_loop_trace d keys : ∀ i acc s b s' dm,
  heap s !! d = Some (ODict dm) →
  (∀ n, dm !! n ≠ Some (VRef d)) →
  for_enumerate (λ _ key ud,
      LoadImageTensord_body Image_open PostFix_meta (VRef d) key ud)
    i keys acc s = Ret b s' →
  trace s' = trace s ++ (EvImageOpen <$> paths_of dm keys).
Proof.
  induction keys as [|key keys IH]; intros i acc s b s' dm Hd Hself.
  - intros [= _ <-]. simpl. by rewrite app_nil_r.
  - rewrite for_enumerate_cons.
    destruct (LoadImageTensord_body _ _ _ _ _ s) as [b1 s1|] eqn:Hb; [|done].
    intros Hrest.
    destruct (tensord_body_Ret _ _ _ _ _ _ Hb)
      as [(p & Hg & _ & _ & ->)|(v & Hg & Hv & _ & Hw)];
      destruct (getitem_Ret _ _ _ _ _ Hg) as (? & dm0 & [= <-] & Hd0 & Hk & _);
      assert (dm0 = dm) as -> by congruence.
    + apply (IH _ _ _ _ _ dm) in Hrest; [|exact Hd|exact Hself].
      rewrite Hrest. simpl.
      unfold paths_of. simpl. rewrite Hk. simpl. by rewrite <- app_assoc.
    + destruct (wrap_direct_le d _ _ _ _ _ (ex_intro _ dm (conj Hd Hself)) Hw)
        as [(dm1 & Hd1 & Hself1) _].
      destruct (wrap_direct_step _ _ _ _ _ _ _ Hd Hself Hw)
        as (v' & a & sh & xs & md & mm & t & _ & _ & _ & _ & Hcase & _ & _
            & _ & _ & _ & Hd' & _ & _ & _ & Htr).
      rewrite Hd1 in Hd'. injection Hd' as ->.
      rewrite (IH _ _ _ _ _ _ Hd1 Hself1 Hrest), Htr.
      rewrite (paths_of_wrap dm key _ t md keys v Hk Hv).
      * unfold paths_of at 2. simpl. rewrite Hk. by destruct v.
      * destruct Hcase as [[? _]|[? _]]; auto.
Qed.


(** ** [LoadImageExd] on a record it has converted *)

Lemma wrap_direct_is_ndarray d dm key mk s u s' w :
  heap s !! d = Some (ODict dm) →
  (∀ n, dm !! n ≠ Some (VRef d)) →
  wrap_direct (VRef d) key mk s = Ret u s' →
  is_ndarray (heap s') w = is_ndarray (heap s) w.
Proof.
  intros Hd Hself Hw.
  destruct (wrap_direct_step _ _ _ _ _ _ _ Hd Hself Hw)
    as (v & a & sh & xs & md & mm & t & _ & _ & _ & _ & Hcase & Ht & _
        & _ & _ & _ & Hd' & Ht' & Hmd' & Hframe & _).
  destruct w as [| | | |x]; try done. simpl.
  destruct (decide (x = d)) as [->|?]; [by rewrite Hd', Hd|].
  destruct (decide (x = t)) as [->|?]; [by rewrite Ht', Ht|].
  destruct (decide (x = md)) as [->|?]; [|by rewrite Hframe].
  rewrite Hmd'. by destruct Hcase as [[_ ->]|(_ & -> & _)].
Qed.

(** After a run of the loop of [LoadImageExd], no target key holds an
    array: what was one is a tensor now, and the other bindings are as
    they were. *)
Lemma exd_lsteps_not_ndarray tgt d keys s s' :
  lsteps is_ndarray tgt d keys s s' →
  copy_ok d s →
  (∀ dm n w, heap s !! d = Some (ODict dm) → dm !! n = Some w →
     is_ndarray (heap s) w = false →
     ∃ dm', heap s' !! d = Some (ODict dm') ∧ dm' !! n = Some w ∧
       is_ndarray (heap s') w = false) ∧
  ∃ dm', heap s' !! d = Some (ODict dm') ∧
    Forall (λ key, ∃ w, dm' !! key = Some w ∧
                     is_ndarray (heap s') w = false) keys.
Proof.
  induction 1 as [s|key keys s s1 s' v Hg Hdir Hh _ IH
                  |key mk keys s s1 s' v _ Hg Hdir Hw _ IH];
    intros Hok.
  - split; [by eauto|]. destruct Hok as (dm & Hd & _). by exists dm.
  - destruct IH as (Hkeep & dm' & Hd' & Hall).
    { unfold copy_ok in *. by rewrite Hh. }
    rewrite Hh in Hkeep. split; [done|].
    exists dm'. split; [done|]. constructor; [|done].
    destruct (getitem_Ret _ _ _ _ _ Hg) as (? & dm & [= <-] & Hd & Hk & _).
    destruct (Hkeep _ _ _ Hd Hk Hdir) as (dm2 & Hd2 & Hk2 & Hnd).
    assert (dm2 = dm') as -> by congruence. eauto.
  - destruct (wrap_direct_le _ _ _ _ _ _ Hok Hw) as [Hok1 _].
    destruct (IH Hok1) as (Hkeep & dm' & Hd' & Hall).
    destruct Hok as (dm & Hd & Hself).
    destruct (getitem_Ret _ _ _ _ _ Hg) as (? & dm0 & [= <-] & Hd0 & Hk & _).
    assert (dm0 = dm) as -> by congruence.
    destruct (wrap_direct_step _ _ _ _ _ _ _ Hd Hself Hw)
      as (v' & a & sh & xs & md & mm & t & _ & _ & _ & _ & Hcase & _ & _
          & _ & _ & _ & Hd1 & Ht1 & _).
    split.
    + intros dm0 n w Hd0' Hn Hnd.
      assert (dm0 = dm) as -> by congruence.
      apply (Hkeep _ n w Hd1).
      * assert (n ≠ key) as Hne by (intros ->; congruence).
        rewrite lookup_insert_ne by done.
        destruct (decide (mk = n)) as [<-|?]; [|by rewrite lookup_insert_ne].
        rewrite lookup_insert_eq.
        destruct Hcase as [[? _]|[? _]]; congruence.
      * by rewrite (wrap_direct_is_ndarray _ _ _ _ _ _ _ w Hd Hself Hw).
    + exists dm'. split; [done|]. constructor; [|done].
      destruct (Hkeep _ key (VRef t) Hd1) as (dm2 & Hd2 & Hk2 & Hnd).
      * apply lookup_insert_eq.
      * simpl. by rewrite Ht1.
      * assert (dm2 = dm') as -> by congruence. eauto.
Qed.


(** ** The two loaders on arrays *)

Lemma loaders_loops_agree selfE d keys : ∀ i accT accE s dm,
  heap s !! d = Some (ODict dm) →
  (∀ n, dm !! n ≠ Some (VRef d)) →
  NoDup keys →
  Forall (λ key, ∃ a sh xs, dm !! key = Some (VRef a) ∧
                   heap s !! a = Some (ONdarray sh xs)) keys →
  (∀ j key, keys !! j = Some key →
     lie_meta_key_postfix selfE !! (i + j)%nat = Some PostFix_meta) →
  match for_enumerate (λ _ key ud,
            LoadImageTensord_body Image_open PostFix_meta (VRef d) key ud)
          i keys accT s,
        for_enumerate (LoadImageExd_body selfE (VRef d)) i keys accE s with
  | Ret bT sT, Ret bE sE =>
    sT = sE ∧
    bT = match keys with [] => accT | _ => false end ∧
    bE = match keys with [] => accE | _ => true end
  | Raise e1 s1, Raise e2 s2 => e1 = e2 ∧ s1 = s2
  | _, _ => False
  end.
Proof.
  induction keys as [|key keys IH]; intros i accT accE s dm Hd Hself Hnd Hall
    Hpost.
  - done.
  - apply NoDup_cons in Hnd as [Hnotin Hnd].
    apply Forall_cons in Hall as [(a & sh & xs & Hk & Ha) Hall].
    pose proof (Hpost 0%nat key eq_refl) as Hp. rewrite Nat.add_0_r in Hp.
    assert (LoadImageTensord_body Image_open PostFix_meta (VRef d) key accT s =
      match wrap_direct (VRef d) key (key +:+ "_" +:+ PostFix_meta) s with
      | Ret _ s1 => Ret false s1
      | Raise e s1 => Raise e s1
      end) as HT.
    { unfold LoadImageTensord_body.
      by rewrite bind_eq, (getitem_eq _ _ _ _ Hd), Hk, bind_eq. }
    assert (LoadImageExd_body selfE (VRef d) i key accE s =
      match wrap_direct (VRef d) key (key +:+ "_" +:+ PostFix_meta) s with
      | Ret _ s1 => Ret true s1
      | Raise e s1 => Raise e s1
      end) as HE.
    { unfold LoadImageExd_body.
      rewrite bind_eq, (getitem_eq _ _ _ _ Hd), Hk, bind_eq. simpl.
      by rewrite Ha, Hp, bind_eq. }
    rewrite !for_enumerate_cons, HT, HE.
    destruct (wrap_direct (VRef d) key (key +:+ "_" +:+ PostFix_meta) s)
      as [[] s1|e s1] eqn:Hw; [|done].
    destruct (wrap_direct_le d _ _ _ _ _ (ex_intro _ dm (conj Hd Hself)) Hw)
      as [(dm1 & Hd1 & Hself1) Hle].
    destruct (wrap_direct_step _ _ _ _ _ _ _ Hd Hself Hw)
      as (v' & a' & sh' & xs' & md & mm & t & _ & _ & _ & _ & Hcase & _ & _
          & _ & _ & _ & Hd' & _).
    rewrite Hd1 in Hd'. injection Hd' as ->.
    assert (Forall (λ key', ∃ a sh xs,
              <[key:=VRef t]> (<[key +:+ "_" +:+ PostFix_meta:=VRef md]> dm)
                !! key' = Some (VRef a) ∧
              heap s1 !! a = Some (ONdarray sh xs)) keys) as Hall1.
    { rewrite Forall_forall in Hall |- *. intros key' Hin.
      destruct (Hall _ Hin) as (a0 & sh0 & xs0 & Hk0 & Ha0).
      exists a0, sh0, xs0. split; [|apply (Hle _ _ Ha0)].
      assert (key ≠ key') by (by intros ->).
      rewrite lookup_insert_ne by done.
      destruct (decide (key +:+ "_" +:+ PostFix_meta = key')) as [<-|?];
        [|by rewrite lookup_insert_ne].
      destruct Hcase as [[Hq Hr]|[Hq _]]; congruence. }
    assert (∀ j key', keys !! j = Some key' →
              lie_meta_key_postfix selfE !! (S i + j)%nat = Some PostFix_meta)
      as Hpost1.
    { intros j key' Hj. replace (S i + j)%nat with (i + S j)%nat by lia.
      exact (Hpost (S j) key' Hj). }
    specialize (IH (S i) false true s1 _ Hd1 Hself1 Hnd Hall1 Hpost1).
    destruct (for_enumerate _ (S i) keys false s1) as [bT sT|eT sT],
             (for_enumerate _ (S i) keys true s1) as [bE sE|eE sE];
      try done.
    destruct IH as (-> & -> & ->). by destruct keys.
Qed.


(** ** A missing key in [LoadImageExd] *)

Lemma lsteps_unbound direct tgt d k keys s s' :
  lsteps direct tgt d keys s s' →
  copy_ok d s →
  (∀ key mk, key ∈ keys → tgt key mk → mk ≠ k) →
  (∃ dm, heap s !! d = Some (ODict dm) ∧ dm !! k = None) →
  ∃ dm', heap s' !! d = Some (ODict dm') ∧ dm' !! k = None.
Proof.
  induction 1 as [s|key keys s s1 s' v Hg Hdir Hh _ IH
                  |key mk keys s s1 s' v Htg Hg Hdir Hw _ IH];
    intros Hok Hsep (dm & Hd & Hk).
  - eauto.
  - apply IH.
    + unfold copy_ok in *. by rewrite Hh.
    + intros key' mk' Hin. apply Hsep. by apply list_elem_of_further.
    + exists dm. by rewrite Hh.
  - destruct (wrap_direct_le _ _ _ _ _ _ Hok Hw) as [Hok1 Hle].
    destruct Hok as (dm0 & Hd0 & Hself).
    assert (dm0 = dm) as -> by congruence.
    destruct (wrap_direct_step _ _ _ _ _ _ _ Hd Hself Hw)
      as (v' & a & sh & xs & md & mm & t & Hv & _ & _ & _ & _ & _ & _
          & _ & _ & _ & Hd' & _).
    apply IH; [done| |].
    + intros key' mk' Hin. apply Hsep. by apply list_elem_of_further.
    + eexists. split; [exact Hd'|].
      rewrite !lookup_insert_ne; [done| |].
      * apply (Hsep key mk); [apply list_elem_of_here|done].
      * intros ->. congruence.
Qed.

(** The loop of [LoadImageExd] over [pre], as the call runs it. *)
Definition exd_prefix_run (self : LoadImageExd) (pre : list string)
    (s : state) (m : gmap string value) : outcome bool :=
  for_enumerate (LoadImageExd_body self (VRef (new_loc (heap s))))
    0 pre false (copied s m).

Lemma exd_prefix_run_trace self pre s m :
  trace (final (exd_prefix_run self pre s m)) = trace s.
Proof.
  unfold exd_prefix_run.
  rewrite (emits_no_event
             (for_enumerate (LoadImageExd_body self (VRef (new_loc (heap s))))
                0 pre false) (copied s m)); [done|].
  apply emits_for_enumerate. intros i key acc.
  unfold LoadImageExd_body. repeat emits_step.
Qed.


(** ** [LoadImageTensord] on tensors and on stray metadata values *)

(** A call that returns although some target key is no string returns the
    working copy, after a run of the loop that raised nothing. *)
Lemma tensord_call_nonstr self s l m k v0 v s' :
  heap s !! l = Some (ODict m) →
  k ∈ lit_keys self → m !! k = Some v0 → is_str v0 = false →
  LoadImageTensord_call Image_open PostFix_meta self (VRef l) s = Ret v s' →
  v = VRef (new_loc (heap s)) ∧
  lsteps tensord_direct tensord_tgt (new_loc (heap s)) (lit_keys self)
    (copied s m) s'.
Proof.
  intros Hl Hk Hv0 Hstr. set (d := new_loc (heap s)).
  assert (heap (copied s m) !! d = Some (ODict m)) as Hd
    by apply lookup_insert_eq.
  unfold LoadImageTensord_call.
  rewrite bind_eq, (dict_copy_eq _ _ _ Hl), bind_eq.
  change (mkState _ (trace s)) with (copied s m). fold d.
  unfold LoadImageTensord_loop.
  destruct (for_enumerate _ 0 (lit_keys self) true (copied s m))
    as [b s2|] eqn:Hloop; [|done].
  destruct b.
  - apply (tensord_loop_true _ _ _ _ _ _ _ Hd) in Hloop as (_ & _ & Hall).
    rewrite Forall_forall in Hall. destruct (Hall _ Hk) as (p & Hp & _).
    rewrite Hp in Hv0. by injection Hv0 as <-.
  - intros [= <- <-]. split; [done|]. by eapply tensord_loop_lsteps.
Qed.


(** X14. When the metadata key of an array-valued target key is bound to
    something that is no object (a string, a number, [None], a tuple),
    [LoadImageTensord] raises [TypeError] at that key, in the state the
    loop over the keys before it ends in: the value is used as the
    metadata mapping, and nothing is written. *)
Theorem tensord_stray_metadata_value_raises
    (self : LoadImageTensord) (s : state) (l : loc) (m : gmap string value)
    (pre post : list string) (k : string) (a : loc) (sh : list nat)
    (xs : list Z) (w : value) :
  heap s !! l = Some (ODict m) →
  lit_keys self = pre ++ k :: post →
  m !! k = Some (VRef a) →
  heap s !! a = Some (ONdarray sh xs) →
  m !! (k +:+ "_" +:+ PostFix_meta) = Some w →
  (∀ x, w ≠ VRef x) →
  (∀ e s1,
     tensord_prefix_run pre s m = Raise e s1 →
     LoadImageTensord_call Image_open PostFix_meta self (VRef l) s
       = Raise e s1) ∧
  (∀ b1 s1,
     tensord_prefix_run pre s m = Ret b1 s1 →
     LoadImageTensord_call Image_open PostFix_meta self (VRef l) s
       = Raise TypeError s1).
Proof.
  intros Hl Hkeys Hk Ha Hmk Hw.
  rewrite (tensord_call_split _ _ _ _ _ _ _ Hl Hkeys).
  split; [by intros e s1 ->|]. intros b1 s1 Hrun. rewrite Hrun.
  assert (inert (heap s) w) as Hin.
  { destruct w as [| | | |x]; try done. by destruct (Hw x). }
  destruct (tensord_prefix_run_Ret _ _ _ _ _ _ _ w Hl Hrun Hmk Hin)
    as (dm1 & Hd1 & Hself1 & Hmk1 & _).
  apply tensord_loop_lsteps in Hrun.
  destruct (lsteps_tracked _ _ _ (loader_direct_ndarray (Tensord self))
              false k a sh xs _ _ _
              (λ H, False_ind _ (Bool.diff_false_true H)) Hrun)
    as [(dm2 & Hd2 & _ & Ha1 & _ & Hkc) _].
  { by eapply (copied_tracked false (Tensord self)). }
  assert (dm2 = dm1) as -> by congruence.
  set (d := new_loc (heap s)) in *.
  assert (∃ v1, dm1 !! k = Some v1 ∧ is_str v1 = false ∧
            shape_of (heap s1) v1 = Some sh) as (v1 & Hk1 & Hstr & Hsh).
  { destruct Hkc as [Hk1|(t & md & mm & mk & Hk1 & Ht & _)].
    - exists (VRef a). split; [done|]. split; [done|].
      unfold shape_of. erewrite storage_ndarray by done. simpl.
      by rewrite Ha1.
    - exists (VRef t). split; [done|]. split; [done|].
      unfold shape_of. erewrite storage_tensor by done. simpl.
      by rewrite Ha1. }
  unfold LoadImageTensord_body.
  rewrite bind_eq, (getitem_eq _ _ _ _ Hd1), Hk1.
  assert (wrap_direct (VRef d) k (k +:+ "_" +:+ PostFix_meta) s1
            = Raise TypeError s1) as Hwrap.
  { unfold wrap_direct.
    rewrite bind_eq, (setdefault_empty_eq _ _ _ _ Hd1), Hmk1.
    rewrite bind_eq, (getitem_eq _ _ _ _ Hd1), Hk1.
    rewrite bind_eq, getattr_shape_eq, Hsh, bind_eq.
    unfold setitem. rewrite bind_eq. simpl.
    destruct w as [| | | |x]; try done. by destruct (Hw x). }
  destruct v1 as [| | p | |x]; try done; by rewrite bind_eq, Hwrap.
Qed.

(** ** Keys of the returned record *)

Lemma lsteps_keys direct tgt d keys s s' :
  lsteps direct tgt d keys s s' →
  copy_ok d s →
  ∀ dm, heap s !! d = Some (ODict dm) →
  ∃ dm', heap s' !! d = Some (ODict dm') ∧
    (∀ n, is_Some (dm !! n) → is_Some (dm' !! n)) ∧
    (∀ n, is_Some (dm' !! n) →
       is_Some (dm !! n) ∨ ∃ key, key ∈ keys ∧ tgt key n).
Proof.
  induction 1 as [s|key keys s s1 s' v _ _ Hh _ IH
                  |key mk keys s s1 s' v Htg _ _ Hw _ IH];
    intros Hok dm Hd.
  - exists dm. split; [done|]. split; [done|]. by left.
  - assert (copy_ok d s1) as Hok1 by (unfold copy_ok in *; by rewrite Hh).
    destruct (IH Hok1 dm) as (dm' & Hd' & Hin & Hout); [by rewrite Hh|].
    exists dm'. split; [done|]. split; [done|].
    intros n Hn. destruct (Hout n Hn) as [?|(key' & Hk' & Ht')]; [by left|].
    right. exists key'. split; [by apply list_elem_of_further|done].
  - destruct (wrap_direct_le _ _ _ _ _ _ Hok Hw) as [Hok1 _].
    destruct Hok as (dm0 & Hd0 & Hself).
    assert (dm0 = dm) as -> by congruence.
    destruct (wrap_direct_step _ _ _ _ _ _ _ Hd Hself Hw)
      as (v' & a & sh & xs & md & mm & t & Hv & _ & _ & _ & _ & _ & _
          & _ & _ & _ & Hd1 & _).
    destruct (IH Hok1 _ Hd1) as (dm' & Hd' & Hin & Hout).
    exists dm'. split; [done|]. split.
    + intros n Hn. apply Hin. rewrite !lookup_insert.
      repeat case_decide; eauto.
    + intros n Hn. destruct (Hout n Hn) as [Hold|(key' & Hk' & Ht')].
      * revert Hold. rewrite !lookup_insert. repeat case_decide; subst.
        -- intros _. left. eauto.
        -- intros _. right. exists key. split; [apply list_elem_of_here|done].
        -- by left.
      * right. exists key'. split; [by apply list_elem_of_further|done].
Qed.


End Loaders.

(** * Concrete runs *)

Module Demo.

(** A decoder that reads every file but ["missing.png"], the framework's
    suffix, a default loader and an inherited loader that answer with a
    value of their own. *)
Definition Image_open (path : string) : option (list nat * list Z) :=
  if decide (path = "missing.png") then None else Some ([1; 1; 3]%nat, [0; 0; 0]).

Definition PostFix_meta : string := "meta_dict".

Definition load_image_d : callable := λ h d, CRet (VStr "loaded by default") h.

Definition LoadImaged_call : gmap loc obj → value → value → cres :=
  λ h d reader, CRet (VStr "loaded by LoadImaged") h.

(** [{"image": array of shape (10, 10, 3), "label": "label.nii"}] *)
Definition image_array : obj := ONdarray [10; 10; 3]%nat (replicate 300 7).

Definition mixed_record : gmap string value :=
  {[ "image" := VRef 2; "label" := VStr "label.nii" ]}.

Definition mixed_state : state :=
  mkState {[ 1%positive := ODict mixed_record; 2%positive := image_array ]} [].

(** [{"image": "image.png"}] *)
Definition path_record : gmap string value := {[ "image" := VStr "image.png" ]}.

Definition path_state : state :=
  mkState {[ 1%positive := ODict path_record ]} [].

(** [{"label": array([-1, 0, 2, 5])}] *)
Definition label_record : gmap string value := {[ "label" := VRef 2 ]}.

Definition label_state : state :=
  mkState {[ 1%positive := ODict label_record;
             2%positive := ONdarray [4]%nat [-1; 0; 2; 5] ]} [].

Definition tensord : LoadImageTensord :=
  LoadImageTensord_init ["image"] None (Some load_image_d).

Definition exd : LoadImageExd :=
  mkLoadImageExd ["image"; "label"] ["meta_dict"; "meta_dict"] false.

Definition normalize : NormalizeLabeld :=
  NormalizeLabeld_init ["label"] None None.

End Demo.







Example normalize_label_example :
  ∃ s', NormalizeLabeld_call Demo.normalize (VRef 1) Demo.label_state
          = Ret (VRef 3) s' ∧
    heap s' !! 2%positive = Some (ONdarray [4]%nat [-1; 0; 1; 1]).
Proof. eexists. split; vm_compute; reflexivity. Qed.


Lemma normalize_label_idempotent_witness :
  ∃ v1 s1,
    NormalizeLabeld_call Demo.normalize (VRef 1) Demo.label_state
      = Ret v1 s1 ∧
    ∃ d1 d2 m s2,
      v1 = VRef d1 ∧ heap s1 !! d1 = Some (ODict m) ∧
      NormalizeLabeld_call Demo.normalize v1 s1 = Ret (VRef d2) s2 ∧
      heap s2 !! d2 = Some (ODict m) ∧
      (∀ l, l ≠ d2 → heap s2 !! l = heap s1 !! l) ∧
      trace s2 = trace s1.
Proof.
  eexists _, _. split; [vm_compute; reflexivity|].
  apply (normalize_label_idempotent Demo.normalize (VRef 1) Demo.label_state).
  vm_compute; reflexivity.
Defined.




(** * More concrete runs *)

Module Cases.

(** [{"label": array([-1, 0, 2, 5]), "image": array([3, 4])}] *)
Definition two_arrays_record : gmap string value :=
  {[ "label" := VRef 2; "image" := VRef 3 ]}.

Definition two_arrays_state : state :=
  mkState {[ 1%positive := ODict two_arrays_record;
             2%positive := ONdarray [4]%nat [-1; 0; 2; 5];
             3%positive := ONdarray [2]%nat [3; 4] ]} [].

(** [{"label": array([-1, 0, 2, 5]), "name": "case-1"}] *)
Definition named_record : gmap string value :=
  {[ "label" := VRef 2; "name" := VStr "case-1" ]}.

Definition named_state : state :=
  mkState {[ 1%positive := ODict named_record;
             2%positive := ONdarray [4]%nat [-1; 0; 2; 5] ]} [].

(** [{"image": "missing.png"}] and [{"image": None}] *)
Definition missing_record : gmap string value :=
  {[ "image" := VStr "missing.png" ]}.

Definition missing_state : state :=
  mkState {[ 1%positive := ODict missing_record ]} [].

Definition none_record : gmap string value := {[ "image" := VNone ]}.

Definition none_state : state :=
  mkState {[ 1%positive := ODict none_record ]} [].

(** [{"image": array, "image_meta_dict": {"filename": "a.png"}}] *)
Definition described_record : gmap string value :=
  {[ "image" := VRef 2; "image_meta_dict" := VRef 3 ]}.

Definition described_state : state :=
  mkState {[ 1%positive := ODict described_record;
             2%positive := Demo.image_array;
             3%positive := ODict {[ "filename" := VStr "a.png" ]} ]} [].

(** [{"image": array}] *)
Definition array_record : gmap string value := {[ "image" := VRef 2 ]}.

Definition array_state : state :=
  mkState {[ 1%positive := ODict array_record;
             2%positive := Demo.image_array ]} [].

(** A record as the loaders leave it: the image is a tensor over the array
    and its metadata mapping has the three entries. *)
Definition converted_record : gmap string value :=
  {[ "image" := VRef 3; "image_meta_dict" := VRef 4 ]}.

Definition converted_meta : gmap string value :=
  {[ "spatial_shape" := VTuple [10; 10]%nat;
     "original_channel_dim" := VInt (-1);
     "original_affine" := VNone ]}.

Definition converted_state : state :=
  mkState {[ 1%positive := ODict converted_record;
             2%positive := Demo.image_array;
             3%positive := OMetaTensor 2 4;
             4%positive := ODict converted_meta ]} [].

(** [{"image": array, "image_meta_dict": "oops"}] *)
Definition stray_record : gmap string value :=
  {[ "image" := VRef 2; "image_meta_dict" := VStr "oops" ]}.

Definition stray_state : state :=
  mkState {[ 1%positive := ODict stray_record;
             2%positive := Demo.image_array ]} [].

End Cases.







Lemma tensord_shapeless_value_raises_witness :
  ∃ s2,
    LoadImageTensord_call Demo.Image_open Demo.PostFix_meta Demo.tensord
      (VRef 1) Cases.none_state = Raise AttributeError s2.
Proof.
  destruct (tensord_shapeless_value_raises Demo.Image_open Demo.PostFix_meta
              Demo.tensord Cases.none_state 1 Cases.none_record
              [] [] "image" VNone eq_refl eq_refl eq_refl I eq_refl)
    as [_ Hret].
  destruct (Hret true (copied Cases.none_state Cases.none_record) eq_refl)
    as (s2 & Hcall & _).
  exists s2. exact Hcall.
Defined.







Lemma tensord_stray_metadata_value_raises_witness :
  LoadImageTensord_call Demo.Image_open Demo.PostFix_meta Demo.tensord
    (VRef 1) Cases.stray_state =
  Raise TypeError (copied Cases.stray_state Cases.stray_record).
Proof.
  destruct (tensord_stray_metadata_value_raises
              Demo.Image_open Demo.PostFix_meta Demo.tensord
              Cases.stray_state 1 Cases.stray_record [] [] "image"
              2 [10; 10; 3]%nat (replicate 300 7) (VStr "oops")
              eq_refl eq_refl eq_refl eq_refl eq_refl)
    as [_ Hret].
  - intros x. discriminate.
  - apply (Hret true). reflexivity.
Defined.

